(** * Cycle analysis: trend, spectral decomposition, dominant cycles

    A shallow embedding of the numerical core of
    [src/app/api/cycle-analysis/route.ts]: [mean], [computeTrendSlope],
    [computeCycleComponents], [summarizeCycles] and the selection and
    aggregation steps of [GET] ([dominantCycles], [weightedPeriod]).

    Numbers.  A JavaScript [number] is modelled by [number]: a real number
    or one of the three special values [Infinity], [-Infinity], [NaN].
    Arithmetic on finite values is exact (rounding, overflow and the sign
    of zero are not modelled); the special values follow the IEEE-754
    rules the source relies on ([0/0 = NaN], [x/0 = +-Infinity],
    [Infinity - Infinity = NaN], comparisons with [NaN] are false).  An
    equation between finite numbers below is an equation between the exact
    values; computed in binary64 the two sides agree up to rounding.

    Binary64.  Where the rounding or the overflow of the program's own
    numbers decides a statement, the arithmetic steps concerned are given
    a second time on binary64 numbers, in the module [Binary64], and
    evaluated there.

    Arrays.  The functions are first given on lists, as functions of the
    elements of their arguments; a second version runs them on arrays held
    in a store, where [push] and [sort] update in place, and is shown to
    compute the first.

    Errors.  A function that dereferences an array element returns a
    [result]: the value, or the [TypeError] such a dereference would throw
    outside the array.

    [Number.prototype.toFixed] is a parameter of the summary.

    The handler.  [sanitizeSymbol] and [GET] are given over the builtins
    of the host they call and over the upstream service; [GET] returns the
    status and the body of its answer, or rejects where the source would
    throw. *)

From Stdlib Require Import String Ascii.
From Stdlib Require Import Reals RList Lra Lia List Arith Bool Permutation Sorted.
From Stdlib Require PrimFloat.
Import ListNotations.

Local Open Scope R_scope.

(** ** Numbers *)

Inductive number : Type :=
| Fin (r : R)
| PosInf
| NegInf
| NaN.

Definition Rltb (x y : R) : bool := if Rlt_dec x y then true else false.
Definition Reqb (x y : R) : bool := if Req_dec_T x y then true else false.

Definition of_nat (n : nat) : number := Fin (INR n).

Definition Number_isFinite (a : number) : bool :=
  match a with Fin _ => true | _ => false end.

Definition num_neg (a : number) : number :=
  match a with
  | Fin x => Fin (- x)
  | PosInf => NegInf
  | NegInf => PosInf
  | NaN => NaN
  end.

Definition num_add (a b : number) : number :=
  match a, b with
  | NaN, _ | _, NaN => NaN
  | Fin x, Fin y => Fin (x + y)
  | PosInf, NegInf | NegInf, PosInf => NaN
  | PosInf, _ | _, PosInf => PosInf
  | NegInf, _ | _, NegInf => NegInf
  end.

Definition num_sub (a b : number) : number := num_add a (num_neg b).

(** The infinity of the sign of [x], or [NaN] at zero: [Infinity * x]. *)
Definition inf_times (positive : bool) (x : R) : number :=
  if Reqb x 0 then NaN
  else if Bool.eqb positive (Rltb 0 x) then PosInf else NegInf.

Definition num_mul (a b : number) : number :=
  match a, b with
  | NaN, _ | _, NaN => NaN
  | Fin x, Fin y => Fin (x * y)
  | PosInf, Fin y | Fin y, PosInf => inf_times true y
  | NegInf, Fin y | Fin y, NegInf => inf_times false y
  | PosInf, PosInf | NegInf, NegInf => PosInf
  | PosInf, NegInf | NegInf, PosInf => NegInf
  end.

Definition num_div (a b : number) : number :=
  match a, b with
  | NaN, _ | _, NaN => NaN
  | Fin x, Fin y =>
      if Reqb y 0 then
        (if Reqb x 0 then NaN else if Rltb 0 x then PosInf else NegInf)
      else Fin (x / y)
  | Fin _, PosInf | Fin _, NegInf => Fin 0
  | PosInf, Fin y => if Rltb y 0 then NegInf else PosInf
  | NegInf, Fin y => if Rltb y 0 then PosInf else NegInf
  | _, _ => NaN
  end.

(** [a ** 2] *)
Definition num_sq (a : number) : number :=
  match a with
  | Fin x => Fin (x * x)
  | PosInf | NegInf => PosInf
  | NaN => NaN
  end.

Definition Math_sqrt (a : number) : number :=
  match a with
  | Fin x => if Rltb x 0 then NaN else Fin (sqrt x)
  | PosInf => PosInf
  | NegInf | NaN => NaN
  end.

Definition Math_cos (a : number) : number :=
  match a with Fin x => Fin (cos x) | _ => NaN end.

Definition Math_sin (a : number) : number :=
  match a with Fin x => Fin (sin x) | _ => NaN end.

(** The angle of the point [(x, y)], in [(-PI, PI]]. *)
Definition atan2 (y x : R) : R :=
  if Rltb 0 x then atan (y / x)
  else if Rltb x 0 then (if Rltb y 0 then atan (y / x) - PI else atan (y / x) + PI)
  else if Rltb 0 y then PI / 2
  else if Rltb y 0 then - (PI / 2)
  else 0.

Definition Math_atan2 (y x : number) : number :=
  match y, x with
  | NaN, _ | _, NaN => NaN
  | Fin y, Fin x => Fin (atan2 y x)
  | Fin y, PosInf => Fin 0
  | Fin y, NegInf => if Rltb y 0 then Fin (- PI) else Fin PI
  | PosInf, Fin _ => Fin (PI / 2)
  | NegInf, Fin _ => Fin (- (PI / 2))
  | PosInf, PosInf => Fin (PI / 4)
  | PosInf, NegInf => Fin (3 * PI / 4)
  | NegInf, PosInf => Fin (- (PI / 4))
  | NegInf, NegInf => Fin (- (3 * PI / 4))
  end.

(** [a < b], [a > b] and [a === b]; every comparison with [NaN] is false. *)
Definition num_lt (a b : number) : bool :=
  match a, b with
  | NaN, _ | _, NaN => false
  | Fin x, Fin y => Rltb x y
  | NegInf, NegInf | PosInf, _ => false
  | NegInf, _ | Fin _, PosInf => true
  | Fin _, NegInf => false
  end.

Definition num_gt (a b : number) : bool := num_lt b a.

Definition num_eq (a b : number) : bool :=
  match a, b with
  | Fin x, Fin y => Reqb x y
  | PosInf, PosInf | NegInf, NegInf => true
  | _, _ => false
  end.

Definition num_ge (a b : number) : bool := num_gt a b || num_eq a b.

(** Reading an array of numbers at an index: [undefined] outside the
    array, which arithmetic turns into [NaN]. *)
Definition num_at (l : list number) (i : nat) : number := nth i l NaN.

(** ** Results of code that can throw *)

Inductive result (A : Type) : Type :=
| Ok (a : A)
| TypeError.
Arguments Ok {A} a.
Arguments TypeError {A}.

(** ** Data model *)

Record CandlePoint : Type := mkCandlePoint {
  timestamp : number;
  close : number
}.

(** ** [mean] *)

Definition sum (values : list number) : number :=
  fold_left (fun acc val => num_add acc val) values (Fin 0).

Definition mean (values : list number) : number :=
  match values with
  | [] => Fin 0
  | _ => num_div (sum values) (of_nat (length values))
  end.

(** ** [computeTrendSlope] *)

(** One turn of the loop of [computeTrendSlope], on the pair
    [(numerator, denominator)]. *)
Definition trend_step (xs ys : list number) (xMean yMean : number)
    (acc : number * number) (i : nat) : number * number :=
  (num_add (fst acc)
     (num_mul (num_sub (num_at xs i) xMean) (num_sub (num_at ys i) yMean)),
   num_add (snd acc) (num_sq (num_sub (num_at xs i) xMean))).

Definition computeTrendSlope (points : list CandlePoint) : result number :=
  let n := length points in
  if (n <? 2)%nat then Ok (Fin 0)
  else
    match nth_error points 0 with
    | None => TypeError
    | Some p0 =>
        let first := timestamp p0 in
        let xs := map (fun point =>
                         num_div (num_sub (timestamp point) first) (Fin 86400))
                      points in
        let ys := map (fun point => close point) points in
        let xMean := mean xs in
        let yMean := mean ys in
        let '(numerator, denominator) :=
          fold_left (trend_step xs ys xMean yMean) (seq 0 n) (Fin 0, Fin 0) in
        if num_eq denominator (Fin 0) then Ok (Fin 0)
        else Ok (num_div numerator denominator)
    end.

(** ** [computeCycleComponents] *)

Module CycleComponent.
Record t : Type := mk {
  index : nat;
  frequency : number;
  amplitude : number;
  phase : number;
  periodSamples : number
}.
End CycleComponent.

(** [Array.prototype.sort] with a comparison function.  The sort is
    stable: [a] is moved behind [b] only when [compareFn a b > 0], and a
    [NaN] comparison counts as [+0].  The result is the one the language
    fixes whenever [compareFn] is a consistent comparison on the elements
    (here: whenever no amplitude is [NaN]). *)
Section ArraySort.
Context {A : Type} (compareFn : A -> A -> number).

Fixpoint sort_insert (x : A) (l : list A) : list A :=
  match l with
  | [] => [x]
  | y :: l' =>
      if num_gt (compareFn x y) (Fin 0) then y :: sort_insert x l'
      else x :: y :: l'
  end.

Definition Array_sort (l : list A) : list A := fold_right sort_insert [] l.
End ArraySort.

(** The angle [(-2 * Math.PI * k * t) / n]. *)
Definition dft_angle (n k t : nat) : number :=
  num_div
    (num_mul (num_mul (num_mul (Fin (-2)) (Fin PI)) (of_nat k)) (of_nat t))
    (of_nat n).

(** One turn of the inner loop, on the pair [(real, imag)]. *)
Definition dft_step (centered : list number) (n k : nat)
    (acc : number * number) (t : nat) : number * number :=
  let angle := dft_angle n k t in
  (num_add (fst acc) (num_mul (num_at centered t) (Math_cos angle)),
   num_add (snd acc) (num_mul (num_at centered t) (Math_sin angle))).

(** The body of the outer loop: the component of harmonic [k]. *)
Definition harmonic (centered : list number) (n k : nat) : CycleComponent.t :=
  let '(real, imag) := fold_left (dft_step centered n k) (seq 0 n) (Fin 0, Fin 0) in
  let magnitude := Math_sqrt (num_add (num_sq real) (num_sq imag)) in
  let amplitude := num_div (num_mul (Fin 2) magnitude) (of_nat n) in
  let phase := Math_atan2 imag real in
  let frequency := num_div (of_nat k) (of_nat n) in
  let periodSamples :=
    if num_eq frequency (Fin 0) then PosInf else num_div (Fin 1) frequency in
  CycleComponent.mk k frequency amplitude phase periodSamples.

Definition compare_amplitude (a b : CycleComponent.t) : number :=
  num_sub (CycleComponent.amplitude b) (CycleComponent.amplitude a).

(** The components in the order the loop pushes them, before the sort. *)
Definition pushed_components (values : list number) : list CycleComponent.t :=
  let n := length values in
  let dataMean := mean values in
  let centered := map (fun value => num_sub value dataMean) values in
  let limit := (n / 2)%nat in
  fold_left (fun components k => components ++ [harmonic centered n k])
            (seq 1 limit) [].

Definition computeCycleComponents (values : list number) : list CycleComponent.t :=
  Array_sort compare_amplitude (pushed_components values).

(** ** Selection of the dominant cycles and their weighted period ([GET]) *)

Module DominantCycle.
Record t : Type := mk {
  index : nat;
  amplitude : number;
  phase : number;
  frequency : number;
  periodSamples : number;
  periodDays : number
}.
End DominantCycle.

Definition to_dominant (samplePeriodDays : number) (component : CycleComponent.t)
    : DominantCycle.t :=
  DominantCycle.mk
    (CycleComponent.index component)
    (CycleComponent.amplitude component)
    (CycleComponent.phase component)
    (CycleComponent.frequency component)
    (CycleComponent.periodSamples component)
    (num_mul (CycleComponent.periodSamples component) samplePeriodDays).

Definition keep_dominant (component : DominantCycle.t) : bool :=
  Number_isFinite (DominantCycle.periodDays component)
  && num_gt (DominantCycle.amplitude component) (Fin 0).

Definition dominantCycles (components : list CycleComponent.t)
    (samplePeriodDays : number) : list DominantCycle.t :=
  firstn 4
    (filter keep_dominant
       (map (to_dominant samplePeriodDays) (firstn 6 components))).

(** The two [reduce] calls of [weightedPeriod]. *)
Definition weighted_sum (dominantCycles : list DominantCycle.t) : number :=
  fold_left
    (fun acc component =>
       num_add acc (num_mul (DominantCycle.periodDays component)
                            (DominantCycle.amplitude component)))
    dominantCycles (Fin 0).

Definition amplitude_sum (dominantCycles : list DominantCycle.t) : number :=
  fold_left
    (fun acc component => num_add acc (DominantCycle.amplitude component))
    dominantCycles (Fin 0).

(** [None] is the [null] of the source. *)
Definition weightedPeriod (dominantCycles : list DominantCycle.t) : option number :=
  if (0 <? length dominantCycles)%nat
  then Some (num_div (weighted_sum dominantCycles) (amplitude_sum dominantCycles))
  else None.

(** ** [summarizeCycles] and the analytics of [GET] *)

Record Analytics : Type := mkAnalytics {
  analytics_dominantCycles : list DominantCycle.t;
  averageCycleLengthDays : option number;
  trendSlope : number;
  summary : string
}.

Section Summary.
Local Open Scope string_scope.

(** [Number.prototype.toFixed], a builtin of the host: the number, then
    the count of decimals. *)
Variable toFixed : number -> nat -> string.

Definition insufficient_data (symbol : string) : string :=
  symbol ++ " এর জন্য বাছাই করা সময় সীমায় পর্যাপ্ত তথ্য পাওয়া যায়নি।".

Definition primaryText (primary : DominantCycle.t) : string :=
  "মূল চক্র " ++ toFixed (DominantCycle.periodDays primary) 1
  ++ " দিনের কাছাকাছি, যার শক্তি "
  ++ toFixed (DominantCycle.amplitude primary) 2 ++ "।".

Definition secondaryText (secondary : option DominantCycle.t) : string :=
  match secondary with
  | Some secondary =>
      "দ্বিতীয় চক্র হিসেবে " ++ toFixed (DominantCycle.periodDays secondary) 1
      ++ " দিনের একটি পুনরাবৃত্তি পাওয়া গেছে।"
  | None => "দ্বিতীয় শক্তিশালী চক্র তেমন প্রকট নয়।"
  end.

Definition summarizeCycles (symbol : string)
    (dominantCycles : list DominantCycle.t) (range : string) : result string :=
  if (length dominantCycles =? 0)%nat then Ok (insufficient_data symbol)
  else
    match nth_error dominantCycles 0 with
    | None => TypeError
    | Some primary =>
        let secondary := nth_error dominantCycles 1 in
        Ok (symbol ++ " এর " ++ range ++ " ডেটায় " ++ primaryText primary ++ " "
            ++ secondaryText secondary
            ++ " এই তথ্যের ভিত্তিতে আপনার এন্ট্রি ও এক্সিট পরিকল্পনা করুন।")
    end.

(** The analytics object [GET] builds from the samples [closes]. *)
Definition analyse (closes : list CandlePoint) (samplePeriodDays : number)
    (symbol range : string) : result Analytics :=
  let priceValues := map (fun point => close point) closes in
  let components := computeCycleComponents priceValues in
  let dominant := dominantCycles components samplePeriodDays in
  let weighted := weightedPeriod dominant in
  match computeTrendSlope closes with
  | TypeError => TypeError
  | Ok slope =>
      match summarizeCycles symbol dominant range with
      | TypeError => TypeError
      | Ok summary => Ok (mkAnalytics dominant weighted slope summary)
      end
  end.
End Summary.

(** ** The arrays of the source as objects in a store

    The arrays of the source ([closes], [priceValues], [xs], [ys],
    [centered], [components], the intermediate arrays of [GET]) are
    objects passed by reference.  [push] and [sort] update an array in
    place; [map], [slice] and [filter] allocate a new one.  A [store] holds
    the arrays by element type, a reference is an index into it, and a
    computation threads the store and may throw. *)

Record store : Type := mkStore {
  number_arrays : list (list number);
  candle_arrays : list (list CandlePoint);
  component_arrays : list (list CycleComponent.t);
  dominant_arrays : list (list DominantCycle.t)
}.

Definition ref : Type := nat.

Definition M (A : Type) : Type := store -> result A * store.

Definition ret {A : Type} (a : A) : M A := fun s => (Ok a, s).

Definition throw {A : Type} : M A := fun s => (TypeError, s).

Definition bind {A B : Type} (m : M A) (k : A -> M B) : M B :=
  fun s =>
    match m s with
    | (Ok a, s') => k a s'
    | (TypeError, s') => (TypeError, s')
    end.

Notation "x <- m ;; k" := (bind m (fun x => k))
  (at level 61, m at next level, right associativity).

Definition lift {A : Type} (r : result A) : M A := fun s => (r, s).

Fixpoint list_set {A : Type} (i : nat) (x : A) (l : list A) : list A :=
  match l, i with
  | [], _ => []
  | _ :: l', O => x :: l'
  | y :: l', S i' => y :: list_set i' x l'
  end.

Definition new_numbers (a : list number) : M ref :=
  fun s => (Ok (length (number_arrays s)),
            mkStore (number_arrays s ++ [a]) (candle_arrays s)
                    (component_arrays s) (dominant_arrays s)).

Definition get_numbers (r : ref) : M (list number) :=
  fun s => (Ok (nth r (number_arrays s) []), s).

Definition get_candles (r : ref) : M (list CandlePoint) :=
  fun s => (Ok (nth r (candle_arrays s) []), s).

Definition new_components (a : list CycleComponent.t) : M ref :=
  fun s => (Ok (length (component_arrays s)),
            mkStore (number_arrays s) (candle_arrays s)
                    (component_arrays s ++ [a]) (dominant_arrays s)).

Definition get_components (r : ref) : M (list CycleComponent.t) :=
  fun s => (Ok (nth r (component_arrays s) []), s).

Definition set_components (r : ref) (a : list CycleComponent.t) : M unit :=
  fun s => (Ok tt,
            mkStore (number_arrays s) (candle_arrays s)
                    (list_set r a (component_arrays s)) (dominant_arrays s)).

Definition new_dominants (a : list DominantCycle.t) : M ref :=
  fun s => (Ok (length (dominant_arrays s)),
            mkStore (number_arrays s) (candle_arrays s)
                    (component_arrays s) (dominant_arrays s ++ [a])).

Definition get_dominants (r : ref) : M (list DominantCycle.t) :=
  fun s => (Ok (nth r (dominant_arrays s) []), s).

(** [components.push(c)] *)
Definition push_component (components : ref) (c : CycleComponent.t) : M unit :=
  a <- get_components components ;;
  set_components components (a ++ [c]).

(** [components.sort(compareFn)]: sorts in place and returns the array. *)
Definition sort_components (compareFn : CycleComponent.t -> CycleComponent.t -> number)
    (components : ref) : M ref :=
  a <- get_components components ;;
  _ <- set_components components (Array_sort compareFn a) ;;
  ret components.

Fixpoint for_each {A : Type} (l : list A) (body : A -> M unit) : M unit :=
  match l with
  | [] => ret tt
  | x :: l' => _ <- body x ;; for_each l' body
  end.

Definition meanM (values : ref) : M number :=
  vs <- get_numbers values ;;
  ret (mean vs).

Definition computeTrendSlopeM (points : ref) : M number :=
  pts <- get_candles points ;;
  let n := length pts in
  if (n <? 2)%nat then ret (Fin 0)
  else
    match nth_error pts 0 with
    | None => throw
    | Some p0 =>
        let first := timestamp p0 in
        xs <- new_numbers
                (map (fun point =>
                        num_div (num_sub (timestamp point) first) (Fin 86400))
                     pts) ;;
        ys <- new_numbers (map (fun point => close point) pts) ;;
        xMean <- meanM xs ;;
        yMean <- meanM ys ;;
        xs_ <- get_numbers xs ;;
        ys_ <- get_numbers ys ;;
        let '(numerator, denominator) :=
          fold_left (trend_step xs_ ys_ xMean yMean) (seq 0 n) (Fin 0, Fin 0) in
        if num_eq denominator (Fin 0) then ret (Fin 0)
        else ret (num_div numerator denominator)
    end.

Definition computeCycleComponentsM (values : ref) : M ref :=
  vs <- get_numbers values ;;
  let n := length vs in
  dataMean <- meanM values ;;
  centered <- new_numbers (map (fun value => num_sub value dataMean) vs) ;;
  let limit := (n / 2)%nat in
  components <- new_components [] ;;
  _ <- for_each (seq 1 limit)
         (fun k =>
            centered_ <- get_numbers centered ;;
            push_component components (harmonic centered_ n k)) ;;
  sort_components compare_amplitude components.

Section SummaryM.
Variable toFixed : number -> nat -> string.

Definition summarizeCyclesM (symbol : string) (dominantCycles : ref)
    (range : string) : M string :=
  cycles <- get_dominants dominantCycles ;;
  lift (summarizeCycles toFixed symbol cycles range).

Definition analyseM (closes : ref) (samplePeriodDays : number)
    (symbol range : string) : M Analytics :=
  points <- get_candles closes ;;
  priceValues <- new_numbers (map (fun point => close point) points) ;;
  components <- computeCycleComponentsM priceValues ;;
  components_ <- get_components components ;;
  sliced <- new_components (firstn 6 components_) ;;
  sliced_ <- get_components sliced ;;
  mapped <- new_dominants (map (to_dominant samplePeriodDays) sliced_) ;;
  mapped_ <- get_dominants mapped ;;
  filtered <- new_dominants (filter keep_dominant mapped_) ;;
  filtered_ <- get_dominants filtered ;;
  dominantCycles <- new_dominants (firstn 4 filtered_) ;;
  cycles <- get_dominants dominantCycles ;;
  let weighted := weightedPeriod cycles in
  trendSlope <- computeTrendSlopeM closes ;;
  summary <- summarizeCyclesM symbol dominantCycles range ;;
  cycles_ <- get_dominants dominantCycles ;;
  ret (mkAnalytics cycles_ weighted trendSlope summary).
End SummaryM.

(** Every array of [s] is still in [s'], with the same elements. *)
Definition store_extends (s s' : store) : Prop :=
  (exists e, number_arrays s' = number_arrays s ++ e)
  /\ (exists e, candle_arrays s' = candle_arrays s ++ e)
  /\ (exists e, component_arrays s' = component_arrays s ++ e)
  /\ (exists e, dominant_arrays s' = dominant_arrays s ++ e).

(** Moving every timestamp by [c] seconds. *)
Definition shift_time (c : number) (point : CandlePoint) : CandlePoint :=
  mkCandlePoint (num_add (timestamp point) c) (close point).

(** ** The formulas of the specification, on real numbers *)

Definition Rsum (l : list R) : R := fold_right Rplus 0 l.

Definition Rmean (l : list R) : R := Rsum l / INR (length l).

(** A sample [(timestamp, value)] with finite fields. *)
Definition of_sample (s : R * R) : CandlePoint :=
  mkCandlePoint (Fin (fst s)) (Fin (snd s)).

(** Elapsed days since the first sample. *)
Definition elapsed_days (samples : list (R * R)) : list R :=
  match samples with
  | [] => []
  | first :: _ => map (fun s => (fst s - fst first) / 86400) samples
  end.

Definition ols_numerator (xs ys : list R) : R :=
  Rsum (map (fun xy => (fst xy - Rmean xs) * (snd xy - Rmean ys)) (combine xs ys)).

Definition ols_denominator (xs : list R) : R :=
  Rsum (map (fun x => (x - Rmean xs) * (x - Rmean xs)) xs).

(** The least-squares slope of value against elapsed days, [0] below two
    samples and on a constant time axis. *)
Definition ols_slope (samples : list (R * R)) : R :=
  let xs := elapsed_days samples in
  let ys := map snd samples in
  if (length samples <? 2)%nat then 0
  else if Reqb (ols_denominator xs) 0 then 0
  else ols_numerator xs ys / ols_denominator xs.

Definition centered_values (values : list R) : list R :=
  map (fun v => v - Rmean values) values.

(** The angle [-2 PI k t / n]. *)
Definition dft_theta (n k t : nat) : R := - (2 * PI * INR k * INR t / INR n).

Definition dft_real (values : list R) (k : nat) : R :=
  Rsum (map (fun t => nth t (centered_values values) 0
                      * cos (dft_theta (length values) k t))
            (seq 0 (length values))).

Definition dft_imag (values : list R) (k : nat) : R :=
  Rsum (map (fun t => nth t (centered_values values) 0
                      * sin (dft_theta (length values) k t))
            (seq 0 (length values))).

Definition dft_amplitude (values : list R) (k : nat) : R :=
  2 * sqrt (dft_real values k * dft_real values k
            + dft_imag values k * dft_imag values k)
  / INR (length values).

(** The order of the decomposition's output: larger amplitude first, and
    among equal amplitudes the smaller harmonic index first. *)
Definition ranked_before (a b : CycleComponent.t) : Prop :=
  num_gt (CycleComponent.amplitude a) (CycleComponent.amplitude b) = true
  \/ (num_eq (CycleComponent.amplitude a) (CycleComponent.amplitude b) = true
      /\ (CycleComponent.index a < CycleComponent.index b)%nat).

Definition amplitude_descending (components : list CycleComponent.t) : Prop :=
  StronglySorted
    (fun a b => num_ge (CycleComponent.amplitude a) (CycleComponent.amplitude b) = true)
    components.

Definition dominant_descending (cycles : list DominantCycle.t) : Prop :=
  StronglySorted
    (fun a b => num_ge (DominantCycle.amplitude a) (DominantCycle.amplitude b) = true)
    cycles.

Definition finite_amplitude (c : CycleComponent.t) : Prop :=
  Number_isFinite (CycleComponent.amplitude c) = true.

(** The real value of a finite number. *)
Definition to_R (a : number) : R :=
  match a with Fin x => x | _ => 0 end.

Definition period_R (cycle : DominantCycle.t) : R :=
  to_R (DominantCycle.periodDays cycle).

Definition amplitude_R (cycle : DominantCycle.t) : R :=
  to_R (DominantCycle.amplitude cycle).

(** The amplitude-weighted average of the periods, in days. *)
Definition weighted_average (cycles : list DominantCycle.t) : R :=
  Rsum (map (fun cycle => period_R cycle * amplitude_R cycle) cycles)
  / Rsum (map amplitude_R cycles).

(** A cycle whose period and amplitude are finite numbers. *)
Definition finite_cycle (cycle : DominantCycle.t) : Prop :=
  Number_isFinite (DominantCycle.periodDays cycle) = true
  /\ Number_isFinite (DominantCycle.amplitude cycle) = true.

(** ** The samples of [GET]: pairing, spacing *)

(** [array.filter(Boolean)] on an array of objects and [null]s. *)
Definition filter_Boolean {A : Type} (l : list (option A)) : list A :=
  flat_map (fun o => match o with Some a => [a] | None => [] end) l.

(** The samples [closes] of [GET]: the timestamp at each index with the
    close at the same index, left out where the close is [null] or there is
    none ([None] in [quoteClose] is a [null]). *)
Definition buildCloses (timestamps : list number)
    (quoteClose : list (option number)) : list CandlePoint :=
  filter_Boolean
    (map (fun '(index, stamp) =>
            match nth_error quoteClose index with
            | Some (Some closeValue) => Some (mkCandlePoint stamp closeValue)
            | _ => None
            end)
         (combine (seq 0 (length timestamps)) timestamps)).

(** The same pairing, by recursion on the two arrays. *)
Fixpoint paired_closes (timestamps : list number)
    (quoteClose : list (option number)) : list CandlePoint :=
  match timestamps, quoteClose with
  | stamp :: timestamps', Some closeValue :: quoteClose' =>
      mkCandlePoint stamp closeValue :: paired_closes timestamps' quoteClose'
  | _ :: timestamps', None :: quoteClose' => paired_closes timestamps' quoteClose'
  | _, _ => []
  end.

(** [closes[i].timestamp], for an index [i] inside the array (the loop of
    [GET] reads no other). *)
Definition timestamp_at (closes : list CandlePoint) (i : nat) : number :=
  timestamp (nth i closes (mkCandlePoint NaN NaN)).

Definition secondsDiffs (closes : list CandlePoint) : list number :=
  map (fun i => num_sub (timestamp_at closes i) (timestamp_at closes (i - 1)))
      (seq 1 (length closes - 1)).

(** The mean spacing of the samples in days, as [GET] computes it. *)
Definition samplePeriodDays (closes : list CandlePoint) : number :=
  let diffs := secondsDiffs closes in
  let avgSeconds :=
    if (0 <? length diffs)%nat
    then num_div (sum diffs) (of_nat (length diffs))
    else Fin 86400 in
  num_div avgSeconds (Fin 86400).

(** Timestamps in strictly increasing order. *)
Definition increasing_stamps (stamps : list number) : Prop :=
  StronglySorted (fun a b => num_lt a b = true) stamps.

(** ** A sampled sinusoid *)

(** [n] samples of [c + A·cos(2π·m·t/n + phi)]: [m] whole cycles of
    amplitude [A] around the level [c]. *)
Definition sinusoid (n m : nat) (c A phi : R) : list R :=
  map (fun t => c + A * cos (2 * PI * INR m * INR t / INR n + phi)) (seq 0 n).

(** The component the decomposition gives to the harmonic [m] of the sinusoid. *)
Definition sinusoid_component (n m : nat) (A phi : R) : CycleComponent.t :=
  CycleComponent.mk m
    (Fin (INR m / INR n))
    (Fin (Rabs A))
    (Fin (atan2 (A * INR n / 2 * sin phi) (A * INR n / 2 * cos phi)))
    (Fin (INR n / INR m)).

(** ** The request handler [GET] *)

(** The handler is given over the builtins of the host it calls:
    [String.prototype.trim] and [toUpperCase], the properties every object
    literal inherits from [Object.prototype], [Number.prototype.toFixed],
    [Date.prototype.toISOString] (which throws on an invalid date) and the
    resolution of [new URL(symbol, base)] (which throws on an invalid
    URL).  The upstream service is the argument [fetch] of [GET]. *)

(** [String.prototype.includes] *)
Fixpoint String_includes (s search : string) : bool :=
  String.prefix search s
  || match s with
     | EmptyString => false
     | String _ rest => String_includes rest search
     end.

(** The truth value of a string: [!s] holds of the empty string only. *)
Definition is_empty (s : string) : bool :=
  match s with EmptyString => true | _ => false end.

(** [value ?? fallback] *)
Definition nullish {A : Type} (value : option A) (fallback : A) : A :=
  match value with Some v => v | None => fallback end.

(** The value of a property read: a string of the literal, or a value
    inherited from [Object.prototype], known by its string conversion. *)
Inductive js_value : Type :=
| JString (s : string)
| JInherited (text : string).

Definition text_of (v : js_value) : string :=
  match v with JString s => s | JInherited text => text end.

Definition RANGE_MAP : list (string * string) :=
  [("3mo", "3mo"); ("6mo", "6mo"); ("1y", "1y"); ("2y", "2y"); ("5y", "5y")]%string.

Definition INTERVAL_MAP : list (string * string) :=
  [("3mo", "1d"); ("6mo", "1d"); ("1y", "1d"); ("2y", "1d"); ("5y", "1wk")]%string.

Fixpoint own_property (object : list (string * string)) (key : string)
    : option string :=
  match object with
  | [] => None
  | (k, v) :: rest => if String.eqb k key then Some v else own_property rest key
  end.

(** The chart of the upstream payload, [payload.chart?.result?.[0]]: its
    [timestamp], [meta?.exchangeName] and [indicators?.quote?.[0]?.close]. *)
Record Chart : Type := mkChart {
  chart_timestamp : option (list number);
  chart_exchangeName : option string;
  chart_close : option (list (option number))
}.

(** The upstream response: [ok], [status], the outcome of [text()], [None]
    when the body cannot be read, and the outcome of [json()], [None] when
    the body is not the JSON of an object, with the chart
    [payload.chart?.result?.[0]] if any.  The payload is taken to have the
    type the source declares for it. *)
Record Upstream : Type := mkUpstream {
  ok : bool;
  status : nat;
  text : option string;
  json : option (option Chart)
}.

(** The request sent upstream: the resolved URL and its [range] and
    [interval] parameters. *)
Record YahooRequest : Type := mkYahooRequest {
  href : string;
  request_range : string;
  request_interval : string
}.

(** The body of the answer 200, without its constant field [ok]. *)
Record Success : Type := mkSuccess {
  requestedSymbol : string;
  resolvedSymbol : string;
  exchange : string;
  lastUpdated : string;
  body_range : js_value;
  body_interval : js_value;
  sampleSize : nat;
  body_samplePeriodDays : number;
  body_closes : list (string * number);
  analytics : Analytics
}.

Inductive body : Type :=
| ErrorBody (error : string) (details : option string)
| SuccessBody (success : Success).

(** The handler answers with a status and a body, or its promise rejects. *)
Inductive outcome : Type :=
| Responded (status : nat) (content : body)
| Rejected.

(** The statuses of a response that has no body. *)
Definition null_body_status (status : nat) : bool :=
  (status =? 101)%nat || (status =? 103)%nat || (status =? 204)%nat
  || (status =? 205)%nat || (status =? 304)%nat.

(** [NextResponse.json(content, { status })]: the constructor of a response
    throws a [RangeError] for a status outside 200..599, and a [TypeError]
    for a status without a body, the JSON text being a body. *)
Definition NextResponse_json (content : body) (status : nat) : outcome :=
  if (200 <=? status)%nat && (status <=? 599)%nat && negb (null_body_status status)
  then Responded status content
  else Rejected.

Section Handler.
Local Open Scope string_scope.

Variable trim : string -> string.
Variable toUpperCase : string -> string.
Variable inherited : string -> option string.
Variable toFixed : number -> nat -> string.
Variable toISOString : number -> option string.
Variable new_URL : string -> option string.

Definition sanitizeSymbol (raw : string) : string :=
  let trimmed := toUpperCase (trim raw) in
  if is_empty trimmed then ""
  else if String_includes trimmed "." then trimmed
  else trimmed ++ ".NS".

(** [object[key]]: an own property of the literal, else an inherited one. *)
Definition get_property (object : list (string * string)) (key : string)
    : option js_value :=
  match own_property object key with
  | Some v => Some (JString v)
  | None => option_map JInherited (inherited key)
  end.

Definition resolve_range (rangeParam : option string) : js_value :=
  nullish (get_property RANGE_MAP (nullish rangeParam "1y")) (JString "1y").

Definition resolve_interval (range : js_value) : js_value :=
  nullish (get_property INTERVAL_MAP (text_of range)) (JString "1d").

(** The [closes] of the response body; a date that cannot be formatted
    makes the handler reject. *)
Fixpoint format_closes (closes : list CandlePoint) : option (list (string * number)) :=
  match closes with
  | [] => Some []
  | point :: rest =>
      match toISOString (num_mul (timestamp point) (Fin 1000)) with
      | None => None
      | Some time =>
          match format_closes rest with
          | None => None
          | Some formatted => Some ((time, close point) :: formatted)
          end
      end
  end.

Definition GET (symbolParam rangeParam : option string)
    (fetch : YahooRequest -> option Upstream) : outcome :=
  let rawSymbol := nullish symbolParam "" in
  let range := resolve_range rangeParam in
  let interval := resolve_interval range in
  let symbol := sanitizeSymbol rawSymbol in
  if is_empty symbol then
    NextResponse_json (ErrorBody "স্টক সিম্বল দিন (যেমন: INFY, RELIANCE)" None) 400
  else
    match new_URL symbol with
    | None => Rejected
    | Some url =>
    match fetch (mkYahooRequest url (text_of range) (text_of interval)) with
    | None => Rejected
    | Some response =>
    if negb (ok response) then
      match text response with
      | None => Rejected
      | Some details =>
          NextResponse_json
            (ErrorBody "ডেটা আনা সম্ভব হয়নি। সিম্বল ঠিক আছে কিনা দেখুন।"
                       (Some details))
            (status response)
      end
    else
      match json response with
      | None => Rejected
      | Some (Some (mkChart (Some (stamp :: stamps)) exchangeName
                            (Some (quote :: quotes)))) =>
          let closes := buildCloses (stamp :: stamps) (quote :: quotes) in
          if (length closes <? 32)%nat then
            NextResponse_json
              (ErrorBody "চক্র বিশ্লেষণের জন্য অন্তত ৩২টি ডেটা পয়েন্ট প্রয়োজন।" None) 422
          else
            let samplePeriodDays := samplePeriodDays closes in
            match analyse toFixed closes samplePeriodDays symbol (text_of range) with
            | TypeError => Rejected
            | Ok analytics =>
            match nth_error closes (length closes - 1) with
            | None => Rejected
            | Some latest =>
            match toISOString (num_mul (timestamp latest) (Fin 1000)) with
            | None => Rejected
            | Some lastUpdated =>
            match format_closes closes with
            | None => Rejected
            | Some formatted =>
                Responded 200
                  (SuccessBody
                     (mkSuccess (toUpperCase (trim rawSymbol)) symbol
                        (nullish exchangeName "NSE") lastUpdated range interval
                        (length closes) samplePeriodDays formatted analytics))
            end end end end
      | Some _ =>
          NextResponse_json
            (ErrorBody "প্রদত্ত সিম্বলের জন্য পর্যাপ্ত ঐতিহাসিক মূল্য পাওয়া যায়নি।" None) 404
      end
    end end.
End Handler.

(** A host for the examples: builtins that leave ASCII upper-case text
    unchanged, no inherited property, and an upstream that answers every
    request with 32 daily samples. *)
Definition daily_stamps : list number :=
  map (fun day => Fin (INR day * 86400)) (seq 0 32).

Definition daily_closes : list (option number) :=
  map (fun day => Some (Fin (100 + INR day))) (seq 0 32).

Definition daily_upstream (request : YahooRequest) : option Upstream :=
  Some (mkUpstream true 200 None
          (Some (Some (mkChart (Some daily_stamps) None (Some daily_closes))))).

Definition same_URL (symbol : string) : option string := Some symbol.

Definition no_URL (symbol : string) : option string := None.

Definition example_GET (new_URL : string -> option string)
    (symbolParam : option string) : outcome :=
  GET (fun s => s) (fun s => s) (fun _ => None) (fun _ _ => EmptyString)
      (fun _ => Some EmptyString) new_URL symbolParam None daily_upstream.

(** ** The arithmetic of the source in binary64

    The definitions above compute with exact real numbers.  The steps of
    the source that use only [+], [*], [/], [Math.sqrt] and comparisons are
    given a second time here on the binary64 numbers of the program, with
    their rounding and overflow: the frequency, the period and the
    amplitude of [computeCycleComponents], the selection of the dominant
    cycles and their weighted period. *)
Module Binary64.
Import PrimFloat.
Local Open Scope float_scope.

(** A count or a loop index, reached from [0] by steps of [1]. *)
Fixpoint of_nat (n : nat) : float :=
  match n with
  | O => 0
  | S n' => of_nat n' + 1
  end.

Definition Number_isFinite (a : float) : bool :=
  negb (is_nan a || is_infinity a).

(** [k / n] *)
Definition frequency (k n : float) : float := k / n.

(** [frequency === 0 ? Infinity : 1 / frequency] *)
Definition periodSamples (k n : float) : float :=
  if frequency k n =? 0 then infinity else 1 / frequency k n.

(** [(2 * Math.sqrt(real ** 2 + imag ** 2)) / n], the squares as products. *)
Definition amplitude (real imag n : float) : float :=
  2 * sqrt (real * real + imag * imag) / n.

(** [x] is [y] or one of the two binary64 numbers next to [y]. *)
Definition adjacent (x y : float) : bool :=
  (next_down y <=? x) && (x <=? next_up y).

(** The period of harmonic [k] of [n] samples is finite, its frequency is
    not zero, and it is the binary64 quotient [n / k] or a neighbour. *)
Definition period_checked (n k : float) : bool :=
  negb (frequency k n =? 0)
  && Number_isFinite (periodSamples k n)
  && adjacent (periodSamples k n) (n / k).

Definition periods_checked (limit : nat) : bool :=
  forallb (fun n =>
             let length := of_nat n in
             forallb (fun k => period_checked length (of_nat k)) (seq 1 (n / 2)))
          (seq 0 (S limit)).

Module CycleComponent.
Record t : Type := mk {
  index : nat;
  frequency : float;
  amplitude : float;
  phase : float;
  periodSamples : float
}.
End CycleComponent.

Module DominantCycle.
Record t : Type := mk {
  index : nat;
  amplitude : float;
  phase : float;
  frequency : float;
  periodSamples : float;
  periodDays : float
}.
End DominantCycle.

Definition to_dominant (samplePeriodDays : float) (component : CycleComponent.t)
    : DominantCycle.t :=
  DominantCycle.mk
    (CycleComponent.index component)
    (CycleComponent.amplitude component)
    (CycleComponent.phase component)
    (CycleComponent.frequency component)
    (CycleComponent.periodSamples component)
    (CycleComponent.periodSamples component * samplePeriodDays).

Definition keep_dominant (component : DominantCycle.t) : bool :=
  Number_isFinite (DominantCycle.periodDays component)
  && (0 <? DominantCycle.amplitude component).

Definition dominantCycles (components : list CycleComponent.t)
    (samplePeriodDays : float) : list DominantCycle.t :=
  firstn 4
    (filter keep_dominant
       (map (to_dominant samplePeriodDays) (firstn 6 components))).

Definition weighted_sum (dominantCycles : list DominantCycle.t) : float :=
  fold_left
    (fun acc component =>
       acc + DominantCycle.periodDays component * DominantCycle.amplitude component)
    dominantCycles 0.

Definition amplitude_sum (dominantCycles : list DominantCycle.t) : float :=
  fold_left (fun acc component => acc + DominantCycle.amplitude component)
            dominantCycles 0.

Definition weightedPeriod (dominantCycles : list DominantCycle.t) : option float :=
  if (0 <? length dominantCycles)%nat
  then Some (weighted_sum dominantCycles / amplitude_sum dominantCycles)
  else None.

(** Samples 72 minutes apart: [avgSeconds / 86400] with [avgSeconds = 4320]. *)
Definition spacing_72_minutes : float := 4320 / 86400.

(** The harmonic [k = 16] of [n = 32] samples, with amplitude [3]. *)
Definition fastest_component : CycleComponent.t :=
  CycleComponent.mk 16 (frequency 16 32) 3 0 (periodSamples 16 32).

(** The same harmonic for 32 closes that alternate between [2^700] and
    [-2^700]: the sum [real] is [32 * 2^700] and its square overflows. *)
Definition overflowing_component : CycleComponent.t :=
  CycleComponent.mk 16 (frequency 16 32) (amplitude (32 * 0x1p+700) 0 32) 0
    (periodSamples 16 32).

Definition fastest_cycle : DominantCycle.t :=
  to_dominant spacing_72_minutes fastest_component.

(** The overflowing harmonic for samples one day apart. *)
Definition overflowing_cycle : DominantCycle.t :=
  to_dominant 1 overflowing_component.
End Binary64.

(** ** Example inputs *)

(** The only harmonic of a two-sample series, with amplitude [1]. *)
Definition unit_component : CycleComponent.t :=
  CycleComponent.mk 1 (Fin (1 / 2)) (Fin 1) (Fin 0) (Fin 2).

(** Two harmonics of a four-sample series, the stronger one first. *)
Definition two_components : list CycleComponent.t :=
  [CycleComponent.mk 1 (Fin (1 / 4)) (Fin 2) (Fin 0) (Fin 4);
   CycleComponent.mk 2 (Fin (1 / 2)) (Fin 1) (Fin 0) (Fin 2)].

(** Cycles of 20 and 10 days with amplitudes 3 and 1. *)
Definition two_cycles : list DominantCycle.t :=
  [DominantCycle.mk 1 (Fin 3) (Fin 0) (Fin (1 / 4)) (Fin 4) (Fin 20);
   DominantCycle.mk 2 (Fin 1) (Fin 0) (Fin (1 / 2)) (Fin 2) (Fin 10)].

(** Two samples taken at the same second. *)
Definition same_second : list (R * R) := [(5, 1); (5, 2)].

Ltac solve_extends :=
  unfold store_extends;
  cbn [number_arrays candle_arrays component_arrays dominant_arrays];
  repeat split; rewrite <- ?app_assoc;
  first [ eexists; reflexivity | exists []; now rewrite app_nil_r ].

(** * Properties *)

(** ** Numbers *)

Lemma Rltb_true (x y : R) : Rltb x y = true <-> x < y.
Proof. unfold Rltb. destruct (Rlt_dec x y); split; intros; try easy. Qed.

Lemma Rltb_false (x y : R) : Rltb x y = false <-> y <= x.
Proof.
  unfold Rltb. destruct (Rlt_dec x y); split; intros; try easy; lra.
Qed.

Lemma Reqb_true (x y : R) : Reqb x y = true <-> x = y.
Proof. unfold Reqb. destruct (Req_dec_T x y); split; intros; try easy. Qed.

Lemma Reqb_false (x y : R) : Reqb x y = false <-> x <> y.
Proof. unfold Reqb. destruct (Req_dec_T x y); split; intros; try easy. Qed.

Lemma num_div_fin (x y : R) : y <> 0 -> num_div (Fin x) (Fin y) = Fin (x / y).
Proof. intros H. simpl. apply Reqb_false in H. now rewrite H. Qed.

Lemma Rsum_app (l1 l2 : list R) : Rsum (l1 ++ l2) = Rsum l1 + Rsum l2.
Proof. induction l1 as [|x l1 IH]; simpl; [lra | rewrite IH; lra]. Qed.

Lemma fold_left_fin {A : Type} (f : A -> R) (l : list A) (a : R) :
  fold_left (fun acc x => num_add acc (Fin (f x))) l (Fin a)
  = Fin (a + Rsum (map f l)).
Proof.
  revert a. induction l as [|x l IH]; intros a; simpl.
  - f_equal. lra.
  - rewrite IH. f_equal. lra.
Qed.

Lemma sum_fin (l : list R) : sum (map Fin l) = Fin (Rsum l).
Proof.
  unfold sum. rewrite <- (map_id l) at 2.
  rewrite <- (Rplus_0_l (Rsum (map (fun x => x) l))).
  rewrite <- fold_left_fin. generalize (Fin 0).
  induction l as [|x l IH]; intros a; simpl; [reflexivity | apply IH].
Qed.

Lemma INR_length_neq0 {A : Type} (x : A) (l : list A) : INR (length (x :: l)) <> 0.
Proof. apply not_0_INR. discriminate. Qed.

Lemma mean_fin (l : list R) : mean (map Fin l) = Fin (Rmean l).
Proof.
  destruct l as [|x l].
  - unfold Rmean. simpl. f_equal. lra.
  - unfold mean. cbn [map].
    change (Fin x :: map Fin l) with (map Fin (x :: l)).
    rewrite sum_fin, length_map. unfold of_nat. rewrite num_div_fin.
    + reflexivity.
    + apply INR_length_neq0.
Qed.

Lemma num_at_fin (l : list R) (i : nat) :
  (i < length l)%nat -> num_at (map Fin l) i = Fin (nth i l 0).
Proof.
  intros H. unfold num_at.
  rewrite (nth_indep _ NaN (Fin 0)) by now rewrite length_map.
  apply (map_nth Fin).
Qed.

Lemma map_nth_seq {A B : Type} (h : A -> B) (d : A) (l : list A) :
  map (fun i => h (nth i l d)) (seq 0 (length l)) = map h l.
Proof.
  induction l as [|x l IH]; [reflexivity|].
  cbn [length seq map nth]. f_equal.
  rewrite <- seq_shift, map_map. exact IH.
Qed.

(** ** The trend estimator *)

Lemma trend_loop_fin (xs ys : list R) (mx my : R) (l : list nat) (a b : R) :
  Forall (fun i => (i < length xs)%nat /\ (i < length ys)%nat) l ->
  fold_left (trend_step (map Fin xs) (map Fin ys) (Fin mx) (Fin my)) l
            (Fin a, Fin b)
  = (Fin (a + Rsum (map (fun i => (nth i xs 0 - mx) * (nth i ys 0 - my)) l)),
     Fin (b + Rsum (map (fun i => (nth i xs 0 - mx) * (nth i xs 0 - mx)) l))).
Proof.
  revert a b. induction l as [|i l IH]; intros a b Hl.
  - simpl. f_equal; f_equal; lra.
  - inversion Hl as [|? ? [Hx Hy] Hl']; subst.
    cbn [fold_left]. unfold trend_step at 2. cbn [fst snd].
    rewrite !num_at_fin by assumption. cbn [num_sub num_neg num_add num_mul num_sq].
    rewrite IH by assumption. cbn [map Rsum fold_right].
    f_equal; f_equal; unfold Rsum; lra.
Qed.

Lemma index_sum_combine (g : R -> R -> R) (xs ys : list R) :
  length xs = length ys ->
  map (fun i => g (nth i xs 0) (nth i ys 0)) (seq 0 (length xs))
  = map (fun xy => g (fst xy) (snd xy)) (combine xs ys).
Proof.
  intros Hlen.
  rewrite <- (map_nth_seq (fun xy => g (fst xy) (snd xy)) (0, 0) (combine xs ys)).
  rewrite length_combine, <- Hlen, Nat.min_id.
  apply map_ext_in. intros i Hi. apply in_seq in Hi.
  rewrite combine_nth by assumption. reflexivity.
Qed.

Lemma trend_xs_fin (t0 : R) (samples : list (R * R)) :
  map (fun point => num_div (num_sub (timestamp point) (Fin t0)) (Fin 86400))
      (map of_sample samples)
  = map Fin (map (fun s => (fst s - t0) / 86400) samples).
Proof.
  rewrite !map_map. apply map_ext. intros s.
  cbn [of_sample timestamp num_sub num_neg num_add].
  rewrite num_div_fin by lra. reflexivity.
Qed.

Lemma computeTrendSlope_fin (samples : list (R * R)) :
  computeTrendSlope (map of_sample samples) = Ok (Fin (ols_slope samples)).
Proof.
  unfold computeTrendSlope, ols_slope. rewrite length_map.
  destruct (length samples <? 2)%nat eqn:Hn; [reflexivity|].
  destruct samples as [|s0 rest]; [discriminate|].
  assert (Hel : elapsed_days (s0 :: rest)
                = map (fun s => (fst s - fst s0) / 86400) (s0 :: rest))
    by reflexivity.
  assert (Hnth : nth_error (map of_sample (s0 :: rest)) 0 = Some (of_sample s0))
    by reflexivity.
  remember (s0 :: rest) as samples eqn:Hs.
  rewrite Hnth. cbv beta iota. cbn [of_sample timestamp fst].
  fold (of_sample). rewrite trend_xs_fin, <- Hel.
  replace (map (fun point => close point) (map of_sample samples))
    with (map Fin (map snd samples))
    by (rewrite !map_map; reflexivity).
  rewrite !mean_fin. subst samples.
  set (xs := elapsed_days (s0 :: rest)). set (ys := map snd (s0 :: rest)).
  assert (Hxs : length xs = length (s0 :: rest))
    by (unfold xs, elapsed_days; now rewrite length_map).
  assert (Hys : length ys = length (s0 :: rest))
    by (unfold ys; now rewrite length_map).
  rewrite trend_loop_fin.
  2:{ apply Forall_forall. intros i Hi. apply in_seq in Hi. lia. }
  rewrite !Rplus_0_l.
  rewrite <- Hxs.
  rewrite (index_sum_combine (fun x y => (x - Rmean xs) * (y - Rmean ys)))
    by congruence.
  rewrite (map_nth_seq (fun x => (x - Rmean xs) * (x - Rmean xs))).
  fold (ols_numerator xs ys). fold (ols_denominator xs).
  cbn [num_eq].
  destruct (Reqb (ols_denominator xs) 0) eqn:Hd; [reflexivity|].
  rewrite num_div_fin by now apply Reqb_false. reflexivity.
Qed.

Lemma computeTrendSlope_total (points : list CandlePoint) :
  exists slope, computeTrendSlope points = Ok slope.
Proof.
  unfold computeTrendSlope.
  destruct (length points <? 2)%nat eqn:Hn; [now eexists|].
  destruct points as [|p0 rest]; [discriminate|].
  cbn [nth_error].
  destruct (fold_left _ _ _) as [numerator denominator].
  destruct (num_eq denominator (Fin 0)); now eexists.
Qed.

Lemma num_sub_shift (a b : number) (c : R) :
  num_sub (num_add a (Fin c)) (num_add b (Fin c)) = num_sub a b.
Proof. destruct a, b; cbn; try reflexivity. f_equal. lra. Qed.

(** ** The spectral decomposition *)

Lemma fold_left_push {A B : Type} (f : A -> B) (l : list A) (init : list B) :
  fold_left (fun components k => components ++ [f k]) l init = init ++ map f l.
Proof.
  revert init. induction l as [|k l IH]; intros init; cbn [fold_left map].
  - now rewrite app_nil_r.
  - rewrite IH, <- app_assoc. reflexivity.
Qed.

Lemma pushed_components_map (values : list number) :
  pushed_components values
  = map (harmonic (map (fun value => num_sub value (mean values)) values)
                  (length values))
        (seq 1 (length values / 2)).
Proof. unfold pushed_components. now rewrite fold_left_push. Qed.

Lemma sort_insert_perm {A : Type} (cmp : A -> A -> number) (x : A) (l : list A) :
  Permutation (sort_insert cmp x l) (x :: l).
Proof.
  induction l as [|y l IH]; cbn [sort_insert]; [reflexivity|].
  destruct (num_gt (cmp x y) (Fin 0)); [|reflexivity].
  rewrite IH. apply perm_swap.
Qed.

Lemma Array_sort_perm {A : Type} (cmp : A -> A -> number) (l : list A) :
  Permutation (Array_sort cmp l) l.
Proof.
  induction l as [|x l IH]; cbn; [reflexivity|].
  fold (Array_sort cmp l). rewrite sort_insert_perm. now constructor.
Qed.

Lemma computeCycleComponents_perm (values : list number) :
  Permutation (computeCycleComponents values) (pushed_components values).
Proof. apply Array_sort_perm. Qed.

Lemma harmonic_index (centered : list number) (n k : nat) :
  CycleComponent.index (harmonic centered n k) = k.
Proof. unfold harmonic. now destruct (fold_left _ _ _). Qed.

Lemma harmonic_frequency (centered : list number) (n k : nat) :
  CycleComponent.frequency (harmonic centered n k) = num_div (of_nat k) (of_nat n).
Proof. unfold harmonic. now destruct (fold_left _ _ _). Qed.

Lemma harmonic_periodSamples (centered : list number) (n k : nat) :
  CycleComponent.periodSamples (harmonic centered n k)
  = if num_eq (num_div (of_nat k) (of_nat n)) (Fin 0) then PosInf
    else num_div (Fin 1) (num_div (of_nat k) (of_nat n)).
Proof. unfold harmonic. now destruct (fold_left _ _ _). Qed.

Lemma pushed_index (values : list number) :
  map CycleComponent.index (pushed_components values) = seq 1 (length values / 2).
Proof.
  rewrite pushed_components_map, map_map.
  erewrite map_ext; [apply map_id|]. intros k. apply harmonic_index.
Qed.

Lemma in_pushed (values : list number) (c : CycleComponent.t) :
  In c (pushed_components values) ->
  exists k, (1 <= k <= length values / 2)%nat
            /\ c = harmonic (map (fun value => num_sub value (mean values)) values)
                            (length values) k.
Proof.
  rewrite pushed_components_map. intros H. apply in_map_iff in H.
  destruct H as (k & <- & Hk). apply in_seq in Hk. exists k. split; [lia | reflexivity].
Qed.

Lemma half_le (n k : nat) : (1 <= k <= n / 2)%nat -> (2 * k <= n)%nat.
Proof.
  intros [_ H]. pose proof (Nat.div_mod_eq n 2).
  pose proof (Nat.mod_upper_bound n 2). lia.
Qed.

Lemma frequency_fin (n k : nat) :
  (1 <= k <= n / 2)%nat ->
  num_div (of_nat k) (of_nat n) = Fin (INR k / INR n) /\ INR k / INR n <> 0.
Proof.
  intros Hk. pose proof (half_le n k Hk) as H2.
  assert (Hn : INR n <> 0) by (apply not_0_INR; lia).
  assert (Hk0 : INR k <> 0) by (apply not_0_INR; lia).
  unfold of_nat. rewrite num_div_fin by assumption. split; [reflexivity|].
  unfold Rdiv. apply Rmult_integral_contrapositive_currified.
  - assumption.
  - now apply Rinv_neq_0_compat.
Qed.

Lemma periodSamples_fin (centered : list number) (n k : nat) :
  (1 <= k <= n / 2)%nat ->
  CycleComponent.periodSamples (harmonic centered n k) = Fin (INR n / INR k).
Proof.
  intros Hk. rewrite harmonic_periodSamples.
  destruct (frequency_fin n k Hk) as [-> Hne].
  cbn [num_eq]. apply Reqb_false in Hne as Hb. rewrite Hb.
  rewrite num_div_fin by assumption. f_equal.
  pose proof (half_le n k Hk).
  assert (Hn : INR n <> 0) by (apply not_0_INR; lia).
  assert (Hk0 : INR k <> 0) by (apply not_0_INR; lia).
  field. split; assumption.
Qed.

Lemma centered_fin (values : list R) :
  map (fun value => num_sub value (mean (map Fin values))) (map Fin values)
  = map Fin (centered_values values).
Proof.
  rewrite mean_fin. unfold centered_values. rewrite !map_map.
  apply map_ext. intros v. reflexivity.
Qed.

Lemma dft_angle_fin (n k t : nat) :
  n <> 0%nat -> dft_angle n k t = Fin (dft_theta n k t).
Proof.
  intros Hn. unfold dft_angle, dft_theta, of_nat. cbn [num_mul].
  rewrite num_div_fin by now apply not_0_INR.
  f_equal. unfold Rdiv. ring.
Qed.

Lemma dft_loop_fin (centered : list R) (n k : nat) (l : list nat) (a b : R) :
  n <> 0%nat ->
  Forall (fun t => (t < length centered)%nat) l ->
  fold_left (dft_step (map Fin centered) n k) l (Fin a, Fin b)
  = (Fin (a + Rsum (map (fun t => nth t centered 0 * cos (dft_theta n k t)) l)),
     Fin (b + Rsum (map (fun t => nth t centered 0 * sin (dft_theta n k t)) l))).
Proof.
  intros Hn. revert a b. induction l as [|t l IH]; intros a b Hl.
  - simpl. f_equal; f_equal; lra.
  - inversion Hl as [|? ? Ht Hl']; subst.
    cbn [fold_left]. unfold dft_step at 2. cbn [fst snd].
    rewrite num_at_fin, dft_angle_fin by assumption.
    cbn [Math_cos Math_sin num_mul num_add].
    rewrite IH by assumption. cbn [map Rsum fold_right].
    f_equal; f_equal; unfold Rsum; lra.
Qed.

Lemma harmonic_fin (values : list R) (k : nat) :
  (1 <= k <= length values / 2)%nat ->
  harmonic (map Fin (centered_values values)) (length values) k
  = CycleComponent.mk k
      (Fin (INR k / INR (length values)))
      (Fin (dft_amplitude values k))
      (Fin (atan2 (dft_imag values k) (dft_real values k)))
      (Fin (INR (length values) / INR k)).
Proof.
  intros Hk. pose proof (half_le _ _ Hk) as H2.
  assert (Hn : length values <> 0%nat) by lia.
  pose proof (periodSamples_fin (map Fin (centered_values values)) _ _ Hk) as Hp.
  revert Hp. unfold harmonic.
  rewrite dft_loop_fin; [|assumption|].
  2:{ apply Forall_forall. intros t Ht. apply in_seq in Ht.
      unfold centered_values. rewrite length_map. lia. }
  rewrite !Rplus_0_l. fold (dft_real values k). fold (dft_imag values k).
  cbn [num_sq num_add Math_sqrt Math_atan2 CycleComponent.periodSamples].
  assert (Hpos : Rltb (dft_real values k * dft_real values k
                       + dft_imag values k * dft_imag values k) 0 = false).
  { apply Rltb_false. nra. }
  rewrite Hpos. cbn [num_mul]. unfold of_nat.
  rewrite (num_div_fin (INR k)), (num_div_fin (2 * _)) by now apply not_0_INR.
  intros ->. reflexivity.
Qed.

Lemma dft_amplitude_nonneg (values : list R) (k : nat) : 0 <= dft_amplitude values k.
Proof.
  unfold dft_amplitude. set (m := sqrt _).
  assert (0 <= m) by apply sqrt_pos.
  destruct (length values) as [|n'].
  - unfold Rdiv. cbn [INR]. rewrite Rinv_0. lra.
  - assert (0 < INR (S n')) by (apply lt_0_INR; lia).
    apply Rmult_le_pos; [lra|]. apply Rlt_le. now apply Rinv_0_lt_compat.
Qed.

Lemma in_components_fin (values : list R) (c : CycleComponent.t) :
  In c (computeCycleComponents (map Fin values)) ->
  exists k, (1 <= k <= length values / 2)%nat
    /\ c = CycleComponent.mk k
             (Fin (INR k / INR (length values)))
             (Fin (dft_amplitude values k))
             (Fin (atan2 (dft_imag values k) (dft_real values k)))
             (Fin (INR (length values) / INR k)).
Proof.
  intros Hin.
  apply (Permutation_in _ (computeCycleComponents_perm _)) in Hin.
  apply in_pushed in Hin. destruct Hin as (k & Hk & ->).
  rewrite length_map in *. exists k. split; [assumption|].
  rewrite centered_fin. now apply harmonic_fin.
Qed.

(** *** The sort *)

Lemma ranked_before_asym (a b : CycleComponent.t) :
  ranked_before a b -> ranked_before b a -> False.
Proof.
  unfold ranked_before, num_gt.
  destruct (CycleComponent.amplitude a) as [x| | |],
           (CycleComponent.amplitude b) as [y| | |]; cbn;
    rewrite ?Rltb_true, ?Reqb_true;
    intros [H1|[H1 I1]] [H2|[H2 I2]]; try discriminate; try lra; lia.
Qed.

Lemma sort_insert_sorted (x : CycleComponent.t) (l : list CycleComponent.t) :
  finite_amplitude x -> Forall finite_amplitude l ->
  Forall (fun y => (CycleComponent.index x < CycleComponent.index y)%nat) l ->
  StronglySorted ranked_before l ->
  StronglySorted ranked_before (sort_insert compare_amplitude x l).
Proof.
  intros Hx. induction l as [|y l IH]; intros Hfin Hidx Hs; cbn [sort_insert].
  - repeat constructor.
  - inversion Hfin as [|? ? Hy Hfin']; subst.
    inversion Hidx as [|? ? Hxy Hidx']; subst.
    apply StronglySorted_inv in Hs. destruct Hs as [Hs Hall].
    unfold finite_amplitude in Hx, Hy. unfold compare_amplitude.
    destruct (CycleComponent.amplitude x) as [ax| | |] eqn:Eax; try discriminate.
    destruct (CycleComponent.amplitude y) as [ay| | |] eqn:Eay; try discriminate.
    cbn [num_sub num_neg num_add num_gt num_lt].
    destruct (Rltb 0 (ay + - ax)) eqn:Hc.
    + apply Rltb_true in Hc. constructor; [now apply IH|].
      apply Forall_forall. intros z Hz.
      apply (Permutation_in _ (sort_insert_perm _ _ _)) in Hz.
      destruct Hz as [<-|Hz].
      * left. rewrite Eax, Eay. cbn. apply Rltb_true. lra.
      * rewrite Forall_forall in Hall. now apply Hall.
    + apply Rltb_false in Hc. constructor; [now constructor|].
      assert (Hy' : ranked_before x y).
      { unfold ranked_before. rewrite Eax, Eay. cbn.
        destruct (Req_dec_T ax ay) as [->|Hne].
        - right. split; [now apply Reqb_true | assumption].
        - left. apply Rltb_true. lra. }
      constructor; [assumption|].
      apply Forall_forall. intros z Hz.
      rewrite Forall_forall in Hall, Hidx', Hfin'.
      specialize (Hall z Hz). specialize (Hidx' z Hz). specialize (Hfin' z Hz).
      unfold finite_amplitude in Hfin'. unfold ranked_before in *.
      rewrite Eax in *. rewrite Eay in *.
      destruct (CycleComponent.amplitude z) as [az| | |]; try discriminate.
      cbn in *. rewrite ?Rltb_true, ?Reqb_true in *.
      destruct (Req_dec_T ax az) as [->|Hne]; [now right|].
      left. destruct Hall as [H|[H _]]; lra.
Qed.

Lemma Array_sort_sorted (l : list CycleComponent.t) :
  Forall finite_amplitude l ->
  StronglySorted (fun a b => (CycleComponent.index a < CycleComponent.index b)%nat) l ->
  StronglySorted ranked_before (Array_sort compare_amplitude l).
Proof.
  induction l as [|x l IH]; intros Hfin Hs; cbn.
  - constructor.
  - fold (Array_sort compare_amplitude l).
    inversion Hfin; subst. apply StronglySorted_inv in Hs. destruct Hs as [Hs Hall].
    apply sort_insert_sorted.
    + assumption.
    + eapply Permutation_Forall; [symmetry; apply Array_sort_perm | assumption].
    + eapply Permutation_Forall; [symmetry; apply Array_sort_perm | assumption].
    + now apply IH.
Qed.

Lemma sorted_unique (l1 l2 : list CycleComponent.t) :
  Permutation l1 l2 ->
  StronglySorted ranked_before l1 -> StronglySorted ranked_before l2 -> l1 = l2.
Proof.
  revert l2. induction l1 as [|x l1 IH]; intros l2 Hp H1 H2.
  - apply Permutation_nil in Hp. now subst.
  - destruct l2 as [|y l2].
    + symmetry in Hp. now apply Permutation_nil in Hp.
    + apply StronglySorted_inv in H1. destruct H1 as [H1 A1].
      apply StronglySorted_inv in H2. destruct H2 as [H2 A2].
      rewrite Forall_forall in A1, A2.
      assert (Hxy : x = y).
      { assert (Hx : In x (y :: l2)) by (eapply Permutation_in; [exact Hp | now left]).
        assert (Hy : In y (x :: l1))
          by (eapply Permutation_in; [symmetry; exact Hp | now left]).
        destruct Hx as [Hx|Hx]; [now subst|].
        destruct Hy as [Hy|Hy]; [now subst|].
        exfalso. apply (ranked_before_asym x y); [now apply A1 | now apply A2]. }
      subst y. f_equal. apply IH; try assumption.
      now apply Permutation_cons_inv in Hp.
Qed.

Lemma seq_index_sorted {A : Type} (f : nat -> A) (index : A -> nat) (a n : nat) :
  (forall k, index (f k) = k) ->
  StronglySorted (fun x y => (index x < index y)%nat) (map f (seq a n)).
Proof.
  intros Hf. revert a. induction n as [|n IH]; intros a; cbn [seq map].
  - constructor.
  - constructor; [apply IH|].
    apply Forall_forall. intros z Hz. apply in_map_iff in Hz.
    destruct Hz as (k & <- & Hk). apply in_seq in Hk. rewrite !Hf. lia.
Qed.

Lemma pushed_fin (values : list R) :
  Forall finite_amplitude (pushed_components (map Fin values)).
Proof.
  apply Forall_forall. intros c Hc. apply in_pushed in Hc.
  destruct Hc as (k & Hk & ->). rewrite length_map in *.
  rewrite centered_fin, harmonic_fin by assumption. reflexivity.
Qed.

Lemma computeCycleComponents_sorted (values : list R) :
  StronglySorted ranked_before (computeCycleComponents (map Fin values)).
Proof.
  apply Array_sort_sorted; [apply pushed_fin|].
  rewrite pushed_components_map. apply seq_index_sorted. apply harmonic_index.
Qed.

(** ** Selection of the dominant cycles *)

Section SortedSublists.
Context {A : Type} (rel : A -> A -> Prop).

Lemma StronglySorted_firstn (n : nat) (l : list A) :
  StronglySorted rel l -> StronglySorted rel (firstn n l).
Proof.
  revert n. induction l as [|x l IH]; intros [|n] Hs; cbn [firstn];
    try constructor.
  - apply IH. now inversion Hs.
  - apply StronglySorted_inv in Hs. destruct Hs as [_ Hall].
    rewrite Forall_forall in *. intros y Hy. apply Hall.
    rewrite <- (firstn_skipn n l). apply in_or_app. now left.
Qed.

Lemma StronglySorted_filter (f : A -> bool) (l : list A) :
  StronglySorted rel l -> StronglySorted rel (filter f l).
Proof.
  induction l as [|x l IH]; intros Hs; cbn [filter]; [constructor|].
  apply StronglySorted_inv in Hs. destruct Hs as [Hs Hall].
  destruct (f x); [|now apply IH].
  constructor; [now apply IH|].
  rewrite Forall_forall in *. intros y Hy. apply Hall.
  now apply filter_In in Hy.
Qed.
End SortedSublists.

Lemma StronglySorted_map {A B : Type} (rel : B -> B -> Prop) (g : A -> B)
    (l : list A) :
  StronglySorted (fun a b => rel (g a) (g b)) l -> StronglySorted rel (map g l).
Proof.
  induction 1 as [|x l Hs IH Hall]; cbn [map]; constructor; [assumption|].
  rewrite Forall_forall in *. intros y Hy. apply in_map_iff in Hy.
  destruct Hy as (z & <- & Hz). now apply Hall.
Qed.

Lemma dominantCycles_length (components : list CycleComponent.t) (spacing : number) :
  (length (dominantCycles components spacing) <= 4)%nat.
Proof. unfold dominantCycles. apply firstn_le_length. Qed.

Lemma dominantCycles_descending (components : list CycleComponent.t) (spacing : number) :
  amplitude_descending components ->
  dominant_descending (dominantCycles components spacing).
Proof.
  unfold amplitude_descending, dominant_descending, dominantCycles. intros Hs.
  apply StronglySorted_firstn, StronglySorted_filter, StronglySorted_map.
  cbn [to_dominant DominantCycle.amplitude].
  now apply StronglySorted_firstn.
Qed.

Lemma in_firstn {A : Type} (n : nat) (l : list A) (x : A) :
  In x (firstn n l) -> In x l.
Proof.
  intros H. rewrite <- (firstn_skipn n l). apply in_or_app. now left.
Qed.

Lemma in_dominantCycles (components : list CycleComponent.t) (spacing : number)
    (d : DominantCycle.t) :
  In d (dominantCycles components spacing) ->
  keep_dominant d = true /\ exists c, In c components /\ d = to_dominant spacing c.
Proof.
  unfold dominantCycles. intros H.
  apply in_firstn, filter_In in H. destruct H as [H Hk]. split; [assumption|].
  apply in_map_iff in H. destruct H as (c & <- & Hc).
  exists c. split; [now apply in_firstn in Hc | reflexivity].
Qed.

Lemma num_mul_pos (a b : number) :
  num_gt a (Fin 0) = true -> num_gt b (Fin 0) = true ->
  num_gt (num_mul a b) (Fin 0) = true.
Proof.
  unfold num_gt.
  destruct a as [x| | |], b as [y| | |]; cbn; try discriminate; intros Hx Hy;
    try reflexivity.
  - apply Rltb_true in Hx, Hy. apply Rltb_true. now apply Rmult_lt_0_compat.
  - unfold inf_times. rewrite Hx. apply Rltb_true in Hx.
    assert (Hne : x <> 0) by lra. apply Reqb_false in Hne. now rewrite Hne.
  - unfold inf_times. rewrite Hy. apply Rltb_true in Hy.
    assert (Hne : y <> 0) by lra. apply Reqb_false in Hne. now rewrite Hne.
Qed.

Lemma dominantCycles_entries (components : list CycleComponent.t) (spacing : number)
    (d : DominantCycle.t) :
  In d (dominantCycles components spacing) ->
  Number_isFinite (DominantCycle.periodDays d) = true
  /\ num_gt (DominantCycle.amplitude d) (Fin 0) = true
  /\ DominantCycle.periodDays d = num_mul (DominantCycle.periodSamples d) spacing.
Proof.
  intros H. apply in_dominantCycles in H. destruct H as [Hk (c & _ & ->)].
  unfold keep_dominant in Hk. apply andb_true_iff in Hk. destruct Hk as [H1 H2].
  repeat split; assumption.
Qed.

(** ** The weighted average period *)

Lemma isFinite_to_R (a : number) : Number_isFinite a = true -> a = Fin (to_R a).
Proof. destruct a; cbn; intros H; try discriminate. reflexivity. Qed.

Lemma fold_left_finite {A : Type} (g : A -> number) (l : list A) (a : R) :
  Forall (fun x => Number_isFinite (g x) = true) l ->
  fold_left (fun acc x => num_add acc (g x)) l (Fin a)
  = Fin (a + Rsum (map (fun x => to_R (g x)) l)).
Proof.
  intros Hl. rewrite <- fold_left_fin. revert a.
  induction Hl as [|x l Hx Hl IH]; intros a; cbn [fold_left]; [reflexivity|].
  rewrite (isFinite_to_R _ Hx) at 1 2. cbn [num_add to_R]. apply IH.
Qed.

Lemma weighted_sum_fin (cycles : list DominantCycle.t) :
  Forall finite_cycle cycles ->
  weighted_sum cycles
  = Fin (Rsum (map (fun cycle => period_R cycle * amplitude_R cycle) cycles)).
Proof.
  intros Hf. unfold weighted_sum.
  rewrite (fold_left_finite
             (fun c => num_mul (DominantCycle.periodDays c) (DominantCycle.amplitude c))).
  - rewrite Rplus_0_l. f_equal. f_equal. apply map_ext_in. intros c Hc.
    rewrite Forall_forall in Hf. destruct (Hf c Hc) as [Hp Ha].
    unfold period_R, amplitude_R.
    rewrite (isFinite_to_R _ Hp), (isFinite_to_R _ Ha) at 1. reflexivity.
  - apply Forall_forall. intros c Hc.
    rewrite Forall_forall in Hf. destruct (Hf c Hc) as [Hp Ha].
    rewrite (isFinite_to_R _ Hp), (isFinite_to_R _ Ha). reflexivity.
Qed.

Lemma amplitude_sum_fin (cycles : list DominantCycle.t) :
  Forall finite_cycle cycles ->
  amplitude_sum cycles = Fin (Rsum (map amplitude_R cycles)).
Proof.
  intros Hf. unfold amplitude_sum.
  rewrite (fold_left_finite DominantCycle.amplitude).
  - now rewrite Rplus_0_l.
  - eapply Forall_impl; [|exact Hf]. now intros c [_ Ha].
Qed.

Lemma weightedPeriod_none (cycles : list DominantCycle.t) :
  weightedPeriod cycles = None <-> cycles = [].
Proof.
  unfold weightedPeriod. destruct cycles as [|c cycles]; cbn; split;
    intros H; try reflexivity; discriminate.
Qed.

Lemma weightedPeriod_fin (cycles : list DominantCycle.t) :
  cycles <> [] -> Forall finite_cycle cycles ->
  Rsum (map amplitude_R cycles) <> 0 ->
  weightedPeriod cycles = Some (Fin (weighted_average cycles)).
Proof.
  intros Hne Hf Hsum. unfold weightedPeriod.
  destruct cycles as [|c cycles]; [contradiction|].
  cbn [length Nat.ltb Nat.leb].
  rewrite weighted_sum_fin, amplitude_sum_fin, num_div_fin by assumption.
  reflexivity.
Qed.

Lemma weighted_bounds (lo hi : R) (cycles : list DominantCycle.t) :
  Forall (fun c => lo <= period_R c <= hi /\ 0 <= amplitude_R c) cycles ->
  lo * Rsum (map amplitude_R cycles)
    <= Rsum (map (fun c => period_R c * amplitude_R c) cycles)
    <= hi * Rsum (map amplitude_R cycles)
  /\ 0 <= Rsum (map amplitude_R cycles).
Proof.
  induction 1 as [|c l [Hp Ha] _ IH]; cbn [map Rsum fold_right].
  - lra.
  - unfold Rsum in *. nra.
Qed.

Lemma weighted_average_between (cycles : list DominantCycle.t) :
  Forall (fun c => 0 <= amplitude_R c) cycles ->
  Rsum (map amplitude_R cycles) <> 0 ->
  MinRlist (map period_R cycles) <= weighted_average cycles
    <= MaxRlist (map period_R cycles).
Proof.
  intros Ha Hsum.
  destruct (weighted_bounds (MinRlist (map period_R cycles))
                            (MaxRlist (map period_R cycles)) cycles) as [[Hlo Hhi] H0].
  { apply Forall_forall. intros c Hc. rewrite Forall_forall in Ha.
    split; [|now apply Ha]. split.
    - apply MinRlist_P1. now apply in_map.
    - apply MaxRlist_P1. now apply in_map. }
  assert (Hpos : 0 < Rsum (map amplitude_R cycles)) by lra.
  unfold weighted_average.
  set (d := Rsum (map amplitude_R cycles)) in *.
  set (n := Rsum (map _ cycles)) in *.
  assert (Hinv : 0 < / d) by now apply Rinv_0_lt_compat.
  replace (MinRlist (map period_R cycles))
    with (MinRlist (map period_R cycles) * d * / d) by (field; lra).
  replace (MaxRlist (map period_R cycles))
    with (MaxRlist (map period_R cycles) * d * / d) by (field; lra).
  unfold Rdiv. split; apply Rmult_le_compat_r; lra.
Qed.

(** ** Worked examples *)

Example mean_example : mean [Fin 1; Fin 2; Fin 3] = Fin 2.
Proof.
  change [Fin 1; Fin 2; Fin 3] with (map Fin [1; 2; 3]).
  rewrite mean_fin. f_equal. unfold Rmean, Rsum. cbn [fold_right length INR].
  field.
Qed.

(** Value [1 + 2·days] sampled once a day: the slope is [2]. *)
Example computeTrendSlope_linear :
  computeTrendSlope
    [mkCandlePoint (Fin 0) (Fin 1); mkCandlePoint (Fin 86400) (Fin 3);
     mkCandlePoint (Fin 172800) (Fin 5)]
  = Ok (Fin 2).
Proof.
  change (computeTrendSlope (map of_sample [(0, 1); (86400, 3); (172800, 5)])
          = Ok (Fin 2)).
  rewrite computeTrendSlope_fin. do 2 f_equal.
  assert (Hd : ols_denominator (elapsed_days [(0, 1); (86400, 3); (172800, 5)]) = 2).
  { unfold ols_denominator, elapsed_days, Rmean, Rsum.
    cbn [map fold_right fst length INR]. field. }
  assert (Hn : ols_numerator (elapsed_days [(0, 1); (86400, 3); (172800, 5)])
                 (map snd [(0, 1); (86400, 3); (172800, 5)]) = 4).
  { unfold ols_numerator, elapsed_days, Rmean, Rsum.
    cbn [map combine fold_right fst snd length INR]. field. }
  unfold ols_slope. rewrite Hd, Hn. cbn [length Nat.ltb Nat.leb].
  assert (H2 : Reqb 2 0 = false) by (apply Reqb_false; lra).
  rewrite H2. field.
Qed.

(** The series [1, -1] is its single harmonic, of amplitude [2] and a
    period of two samples. *)
Example computeCycleComponents_alternating :
  computeCycleComponents [Fin 1; Fin (-1)]
  = [CycleComponent.mk 1 (Fin (1 / 2)) (Fin 2) (Fin 0) (Fin 2)].
Proof.
  change [Fin 1; Fin (-1)] with (map Fin [1; -1]).
  unfold computeCycleComponents. rewrite pushed_components_map, length_map.
  rewrite centered_fin.
  cbn [length Nat.div Nat.divmod fst seq map Array_sort fold_right sort_insert].
  change (centered_values [1; -1]) with (map (fun v => v - Rmean [1; -1]) [1; -1]).
  fold (centered_values [1; -1]).
  change 2%nat with (length [1; -1]). rewrite harmonic_fin by (cbn; lia).
  assert (Hm : Rmean [1; -1] = 0).
  { unfold Rmean, Rsum. cbn [fold_right length INR]. field. }
  assert (Hre : dft_real [1; -1] 1 = 2).
  { unfold dft_real, centered_values, dft_theta, Rsum. rewrite Hm.
    cbn [length seq map nth fold_right INR].
    replace (- (2 * PI * 1 * 0 / (1 + 1))) with 0 by field.
    replace (- (2 * PI * 1 * 1 / (1 + 1))) with (- PI) by field.
    rewrite cos_0, cos_neg, cos_PI. ring. }
  assert (Him : dft_imag [1; -1] 1 = 0).
  { unfold dft_imag, centered_values, dft_theta, Rsum. rewrite Hm.
    cbn [length seq map nth fold_right INR].
    replace (- (2 * PI * 1 * 0 / (1 + 1))) with 0 by field.
    replace (- (2 * PI * 1 * 1 / (1 + 1))) with (- PI) by field.
    rewrite sin_0, sin_neg, sin_PI. ring. }
  unfold dft_amplitude. rewrite Hre, Him.
  replace (2 * 2 + 0 * 0) with (2 * 2) by ring.
  rewrite sqrt_square by lra.
  assert (Hph : atan2 0 2 = 0).
  { unfold atan2. assert (H : Rltb 0 2 = true) by (apply Rltb_true; lra).
    rewrite H. replace (0 / 2) with 0 by field. apply atan_0. }
  rewrite Hph. cbn [length INR]. repeat f_equal; field.
Qed.

(** Cycles of 20 and 10 days with amplitudes 3 and 1 average to 17.5 days. *)
Example weightedPeriod_example : weightedPeriod two_cycles = Some (Fin (35 / 2)).
Proof.
  rewrite weightedPeriod_fin.
  - do 2 f_equal. unfold weighted_average, two_cycles, period_R, amplitude_R, Rsum.
    cbn. field.
  - discriminate.
  - unfold two_cycles, finite_cycle. repeat constructor.
  - unfold two_cycles, amplitude_R, Rsum. cbn. lra.
Qed.

(** ** The store: the effectful functions compute the pure ones *)

Lemma length_list_set {A : Type} (i : nat) (x : A) (l : list A) :
  length (list_set i x l) = length l.
Proof.
  revert i. induction l as [|y l IH]; intros [|i]; cbn; try reflexivity.
  now rewrite IH.
Qed.

Lemma nth_list_set {A : Type} (i : nat) (x d : A) (l : list A) :
  (i < length l)%nat -> nth i (list_set i x l) d = x.
Proof.
  revert i. induction l as [|y l IH]; intros [|i] Hi; cbn in *; try lia.
  - reflexivity.
  - apply IH. lia.
Qed.

Lemma list_set_twice {A : Type} (i : nat) (x y : A) (l : list A) :
  list_set i y (list_set i x l) = list_set i y l.
Proof.
  revert i. induction l as [|z l IH]; intros [|i]; cbn; try reflexivity.
  now rewrite IH.
Qed.

Lemma list_set_same {A : Type} (i : nat) (d : A) (l : list A) :
  (i < length l)%nat -> list_set i (nth i l d) l = l.
Proof.
  revert i. induction l as [|z l IH]; intros [|i] Hi; cbn in *; try lia.
  - reflexivity.
  - rewrite IH by lia. reflexivity.
Qed.

Lemma list_set_last {A : Type} (x y : A) (l : list A) :
  list_set (length l) y (l ++ [x]) = l ++ [y].
Proof. induction l as [|z l IH]; cbn; [reflexivity | now rewrite IH]. Qed.

Lemma nth_last {A : Type} (x d : A) (l : list A) : nth (length l) (l ++ [x]) d = x.
Proof. now rewrite nth_middle. Qed.

Lemma nth_last1 {A : Type} (x y d : A) (l : list A) :
  nth (S (length l)) ((l ++ [x]) ++ [y]) d = y.
Proof.
  replace (S (length l)) with (length (l ++ [x]))
    by (rewrite length_app; cbn; lia).
  apply nth_last.
Qed.

Lemma nth_last2 {A : Type} (x y z d : A) (l : list A) :
  nth (S (S (length l))) (((l ++ [x]) ++ [y]) ++ [z]) d = z.
Proof.
  replace (S (S (length l))) with (length ((l ++ [x]) ++ [y]))
    by (rewrite !length_app; cbn; lia).
  apply nth_last.
Qed.

Lemma push_loop (centered components : ref) (n : nat) (l : list nat) (s : store) :
  (components < length (component_arrays s))%nat ->
  for_each l
    (fun k =>
       centered_ <- get_numbers centered ;;
       push_component components (harmonic centered_ n k)) s
  = (Ok tt,
     mkStore (number_arrays s) (candle_arrays s)
       (list_set components
          (nth components (component_arrays s) []
           ++ map (harmonic (nth centered (number_arrays s) []) n) l)
          (component_arrays s))
       (dominant_arrays s)).
Proof.
  revert s. induction l as [|k l IH]; intros s Hr; cbn [for_each map].
  - unfold ret. rewrite app_nil_r, list_set_same by assumption. now destruct s.
  - unfold bind at 1. unfold bind at 1.
    cbn [get_numbers push_component bind get_components set_components].
    rewrite IH by (cbn; now rewrite length_list_set).
    cbn [number_arrays candle_arrays component_arrays dominant_arrays].
    rewrite nth_list_set, list_set_twice, <- app_assoc by assumption.
    reflexivity.
Qed.

Lemma computeCycleComponentsM_run (values : ref) (s : store) :
  computeCycleComponentsM values s
  = (Ok (length (component_arrays s)),
     mkStore
       (number_arrays s
        ++ [map (fun value =>
                   num_sub value (mean (nth values (number_arrays s) [])))
                (nth values (number_arrays s) [])])
       (candle_arrays s)
       (component_arrays s
        ++ [computeCycleComponents (nth values (number_arrays s) [])])
       (dominant_arrays s)).
Proof.
  unfold computeCycleComponentsM, meanM.
  cbn [bind get_numbers ret new_numbers new_components].
  unfold bind at 1.
  rewrite push_loop.
  2:{ cbn. rewrite length_app. cbn. lia. }
  cbn [number_arrays candle_arrays component_arrays dominant_arrays].
  unfold sort_components.
  cbn [bind get_components set_components ret
       number_arrays candle_arrays component_arrays dominant_arrays].
  rewrite !nth_last, list_set_last, nth_last, list_set_last. cbn [app].
  unfold computeCycleComponents. rewrite pushed_components_map. reflexivity.
Qed.

Lemma computeTrendSlopeM_run (points : ref) (s : store) :
  exists e,
    computeTrendSlopeM points s
    = (computeTrendSlope (nth points (candle_arrays s) []),
       mkStore (number_arrays s ++ e) (candle_arrays s)
               (component_arrays s) (dominant_arrays s)).
Proof.
  unfold computeTrendSlopeM, computeTrendSlope.
  cbn [bind get_candles].
  destruct (length (nth points (candle_arrays s) []) <? 2)%nat.
  - exists []. rewrite app_nil_r. now destruct s.
  - destruct (nth_error (nth points (candle_arrays s) []) 0) as [p0|].
    + eexists [_; _]. unfold meanM.
      cbn [bind new_numbers get_numbers ret
           number_arrays candle_arrays component_arrays dominant_arrays].
      rewrite nth_last.
      rewrite (app_nth1 (_ ++ [_])) by (rewrite length_app; cbn; lia).
      rewrite nth_last, <- app_assoc. cbn [app].
      destruct (fold_left _ _ _) as [numerator denominator].
      destruct (num_eq denominator (Fin 0)); reflexivity.
    + exists []. rewrite app_nil_r. now destruct s.
Qed.

Lemma store_extends_refl (s : store) : store_extends s s.
Proof. repeat split; exists []; now rewrite app_nil_r. Qed.

Lemma analyseM_run (toFixed : number -> nat -> string) (closes : ref)
    (spacing : number) (symbol range : string) (s : store) :
  exists s',
    analyseM toFixed closes spacing symbol range s
    = (analyse toFixed (nth closes (candle_arrays s) []) spacing symbol range, s')
    /\ store_extends s s'
    /\ candle_arrays s' = candle_arrays s.
Proof.
  unfold analyseM, analyse.
  cbn [bind get_candles new_numbers].
  unfold bind at 1. rewrite computeCycleComponentsM_run.
  cbn [number_arrays candle_arrays component_arrays dominant_arrays].
  rewrite nth_last.
  cbn [bind get_components new_components get_dominants new_dominants
       number_arrays candle_arrays component_arrays dominant_arrays].
  rewrite !length_app. cbn [length]. rewrite !Nat.add_1_r.
  rewrite ?nth_last, ?nth_last1, ?nth_last2.
  fold (dominantCycles
          (computeCycleComponents
             (map (fun point => close point) (nth closes (candle_arrays s) [])))
          spacing).
  set (cycles := dominantCycles _ spacing).
  unfold bind at 1.
  match goal with
  | |- context [computeTrendSlopeM closes ?s1] =>
      destruct (computeTrendSlopeM_run closes s1) as [e He]; rewrite He
  end.
  cbn [number_arrays candle_arrays component_arrays dominant_arrays].
  destruct (computeTrendSlope (nth closes (candle_arrays s) [])) as [slope|].
  - unfold summarizeCyclesM.
    cbn [bind get_dominants lift
         number_arrays candle_arrays component_arrays dominant_arrays].
    rewrite !nth_last2. fold cycles.
    destruct (summarizeCycles toFixed symbol cycles range) as [text|].
    + cbn [ret]. eexists. split; [reflexivity|].
      split; [solve_extends | reflexivity].
    + eexists. split; [reflexivity|]. split; [solve_extends | reflexivity].
  - eexists. split; [reflexivity|]. split; [solve_extends | reflexivity].
Qed.

(** * The claims *)

(** ** The trend estimator *)

(** C4: [computeTrendSlope] never throws; it returns exactly [0] below two
    samples and when the denominator [Σ(x_i−x̄)²] is exactly [0]; and on
    every list of samples it returns the least-squares slope
    [Σ(x_i−x̄)(y_i−ȳ)/Σ(x_i−x̄)²] of value against elapsed days since the
    first sample ([ols_slope]). *)
Theorem computeTrendSlope_ols (samples : list (R * R)) :
  (forall points, exists slope, computeTrendSlope points = Ok slope)
  /\ (forall point, computeTrendSlope [] = Ok (Fin 0)
                    /\ computeTrendSlope [point] = Ok (Fin 0))
  /\ computeTrendSlope (map of_sample samples) = Ok (Fin (ols_slope samples))
  /\ (ols_denominator (elapsed_days samples) = 0 ->
      computeTrendSlope (map of_sample samples) = Ok (Fin 0))
  /\ ((2 <= length samples)%nat ->
      ols_denominator (elapsed_days samples) <> 0 ->
      ols_slope samples
      = ols_numerator (elapsed_days samples) (map snd samples)
        / ols_denominator (elapsed_days samples)).
Proof.
  split; [exact computeTrendSlope_total|].
  split; [intros point; split; reflexivity|].
  split; [apply computeTrendSlope_fin|].
  split.
  - intros Hd. rewrite computeTrendSlope_fin. unfold ols_slope.
    apply Reqb_true in Hd. rewrite Hd.
    now destruct (length samples <? 2)%nat.
  - intros Hn Hd. unfold ols_slope.
    apply Nat.ltb_ge in Hn. apply Reqb_false in Hd. now rewrite Hn, Hd.
Qed.

Lemma computeTrendSlope_ols_witness :
  ols_denominator (elapsed_days same_second) = 0
  /\ computeTrendSlope (map of_sample same_second) = Ok (Fin 0).
Proof.
  assert (H : ols_denominator (elapsed_days same_second) = 0).
  { unfold ols_denominator, elapsed_days, same_second, Rmean, Rsum.
    cbn [map fold_right fst length INR]. field. }
  split; [exact H|].
  destruct (computeTrendSlope_ols same_second) as (_ & _ & _ & Hzero & _).
  exact (Hzero H).
Defined.

(** C10: [computeTrendSlope] is invariant under time translation: adding
    the same constant [c] to every timestamp leaves the slope unchanged. *)
Theorem computeTrendSlope_translation (c : R) (points : list CandlePoint) :
  computeTrendSlope (map (shift_time (Fin c)) points) = computeTrendSlope points.
Proof.
  unfold computeTrendSlope. rewrite length_map.
  destruct (length points <? 2)%nat; [reflexivity|].
  destruct points as [|p0 rest]; [reflexivity|].
  remember (p0 :: rest) as points eqn:Hp.
  assert (Hshift : nth_error (map (shift_time (Fin c)) points) 0
                   = Some (shift_time (Fin c) p0)) by now subst.
  assert (Hnth : nth_error points 0 = Some p0) by now subst.
  rewrite Hshift, Hnth. cbv beta iota. rewrite !map_map.
  cbn [shift_time timestamp close].
  assert (Hxs : map (fun x => num_div (num_sub (num_add (timestamp x) (Fin c))
                                          (num_add (timestamp p0) (Fin c)))
                                 (Fin 86400)) points
                = map (fun point => num_div (num_sub (timestamp point) (timestamp p0))
                                            (Fin 86400)) points).
  { apply map_ext. intros p. now rewrite num_sub_shift. }
  rewrite Hxs. reflexivity.
Qed.

(** ** The spectral decomposition *)

Lemma frequency_increasing (n k1 k2 : nat) :
  (1 <= k1)%nat -> (k1 < k2)%nat -> (1 <= k2 <= n / 2)%nat ->
  num_lt (Fin (INR k1 / INR n)) (Fin (INR k2 / INR n)) = true.
Proof.
  intros H1 H12 H2. pose proof (half_le _ _ H2).
  cbn [num_lt]. apply Rltb_true. unfold Rdiv.
  apply Rmult_lt_compat_r.
  - apply Rinv_0_lt_compat. apply lt_0_INR. lia.
  - now apply lt_INR.
Qed.

(** C1: for every sequence of [n] finite values the decomposition has exactly
    [floor(n/2)] components, one for each harmonic [k = 1..floor(n/2)];
    the component of harmonic [k] has the amplitude
    [2·sqrt(real²+imag²)/n], where [real] and [imag] are the direct sums of
    the mean-centered values times [cos θ] and [sin θ] at [θ = −2πkt/n]
    ([dft_real], [dft_imag], [dft_amplitude]), an amplitude that is never
    negative, the phase [atan2(imag, real)] and the frequency [k/n]; and
    the frequency grows strictly with the harmonic index. *)
Theorem computeCycleComponents_dft (values : list R) :
  let n := length values in
  let components := computeCycleComponents (map Fin values) in
  length components = (n / 2)%nat
  /\ Permutation (map CycleComponent.index components) (seq 1 (n / 2))
  /\ Forall
       (fun c =>
          let k := CycleComponent.index c in
          (1 <= k <= n / 2)%nat
          /\ CycleComponent.amplitude c = Fin (dft_amplitude values k)
          /\ 0 <= dft_amplitude values k
          /\ CycleComponent.phase c
             = Fin (atan2 (dft_imag values k) (dft_real values k))
          /\ CycleComponent.frequency c = Fin (INR k / INR n))
       components
  /\ (forall c1 c2,
        In c1 components -> In c2 components ->
        (CycleComponent.index c1 < CycleComponent.index c2)%nat ->
        num_lt (CycleComponent.frequency c1) (CycleComponent.frequency c2) = true).
Proof.
  intros n components.
  assert (Hperm : Permutation components (pushed_components (map Fin values)))
    by apply computeCycleComponents_perm.
  split.
  { rewrite (Permutation_length Hperm), pushed_components_map.
    now rewrite length_map, length_seq, length_map. }
  split.
  { rewrite (Permutation_map CycleComponent.index Hperm), pushed_index.
    now rewrite length_map. }
  split.
  { apply Forall_forall. intros c Hc. apply in_components_fin in Hc.
    destruct Hc as (k & Hk & ->). unfold n.
    cbn [CycleComponent.index CycleComponent.amplitude CycleComponent.phase
         CycleComponent.frequency].
    repeat split; try lia. apply dft_amplitude_nonneg. }
  intros c1 c2 H1 H2 Hlt.
  apply in_components_fin in H1, H2.
  destruct H1 as (k1 & Hk1 & ->). destruct H2 as (k2 & Hk2 & ->).
  cbn [CycleComponent.index CycleComponent.frequency] in *.
  apply frequency_increasing; lia.
Qed.

Lemma computeCycleComponents_dft_witness :
  exists c1 c2,
    In c1 (computeCycleComponents (map Fin [1; 2; 3; 4]))
    /\ In c2 (computeCycleComponents (map Fin [1; 2; 3; 4]))
    /\ (CycleComponent.index c1 < CycleComponent.index c2)%nat
    /\ num_lt (CycleComponent.frequency c1) (CycleComponent.frequency c2) = true.
Proof.
  destruct (computeCycleComponents_dft [1; 2; 3; 4]) as (_ & Hperm & _ & Hmono).
  assert (H1 : In 1%nat (map CycleComponent.index
                           (computeCycleComponents (map Fin [1; 2; 3; 4])))).
  { eapply Permutation_in; [symmetry; exact Hperm|]. cbn. now left. }
  assert (H2 : In 2%nat (map CycleComponent.index
                           (computeCycleComponents (map Fin [1; 2; 3; 4])))).
  { eapply Permutation_in; [symmetry; exact Hperm|]. cbn. right. now left. }
  apply in_map_iff in H1, H2.
  destruct H1 as (c1 & E1 & I1). destruct H2 as (c2 & E2 & I2).
  exists c1, c2. split; [exact I1|]. split; [exact I2|].
  assert (Hlt : (CycleComponent.index c1 < CycleComponent.index c2)%nat)
    by (rewrite E1, E2; lia).
  split; [exact Hlt|]. exact (Hmono c1 c2 I1 I2 Hlt).
Defined.

Lemma ranked_before_ge (a b : CycleComponent.t) :
  ranked_before a b ->
  num_ge (CycleComponent.amplitude a) (CycleComponent.amplitude b) = true.
Proof.
  unfold ranked_before, num_ge. intros [H|[H _]]; rewrite H;
    [reflexivity | apply orb_true_r].
Qed.

Lemma StronglySorted_weaken {A : Type} (P Q : A -> A -> Prop) (l : list A) :
  (forall a b, P a b -> Q a b) -> StronglySorted P l -> StronglySorted Q l.
Proof.
  intros HPQ. induction 1 as [|x l Hs IH Hall]; constructor; [assumption|].
  eapply Forall_impl; [|exact Hall]. intros b. apply HPQ.
Qed.

(** C5: for every sequence of finite values the components come out
    sorted by amplitude, largest first, and components of exactly equal
    amplitude in ascending harmonic index; this order is the only one a
    rearrangement of the components can have, so the output is determined
    by the input. *)
Theorem computeCycleComponents_order (values : list R) :
  let components := computeCycleComponents (map Fin values) in
  amplitude_descending components
  /\ StronglySorted ranked_before components
  /\ (forall l, Permutation l components ->
                StronglySorted ranked_before l -> l = components).
Proof.
  intros components.
  pose proof (computeCycleComponents_sorted values) as Hs. fold components in Hs.
  split; [|split].
  - unfold amplitude_descending.
    eapply StronglySorted_weaken; [|exact Hs]. apply ranked_before_ge.
  - exact Hs.
  - intros l Hp Hl. now apply sorted_unique.
Qed.

Lemma computeCycleComponents_order_witness :
  exists l,
    Permutation l (computeCycleComponents (map Fin [1; 2; 3; 4]))
    /\ StronglySorted ranked_before l
    /\ l = computeCycleComponents (map Fin [1; 2; 3; 4]).
Proof.
  destruct (computeCycleComponents_order [1; 2; 3; 4]) as (_ & Hs & Huniq).
  exists (computeCycleComponents (map Fin [1; 2; 3; 4])).
  split; [apply Permutation_refl|]. split; [exact Hs|].
  exact (Huniq _ (Permutation_refl _) Hs).
Defined.

Lemma periods_checked_1024 : Binary64.periods_checked 1024 = true.
Proof. vm_compute. reflexivity. Qed.

Lemma periods_checked_spec (limit n k : nat) :
  Binary64.periods_checked limit = true ->
  (n <= limit)%nat -> (1 <= k <= n / 2)%nat ->
  Binary64.period_checked (Binary64.of_nat n) (Binary64.of_nat k) = true.
Proof.
  unfold Binary64.periods_checked. intros H Hn Hk.
  rewrite forallb_forall in H.
  assert (Hin : In n (seq 0 (S limit))) by (apply in_seq; lia).
  specialize (H n Hin). cbv beta zeta in H. rewrite forallb_forall in H.
  apply H. apply in_seq. lia.
Qed.

(** C7, as stated, fails in binary64: for [n = 49] and [k = 1] the
    frequency [1 / 49] is not zero and [1 / frequency] is not [49 / 1] but
    the next binary64 number above it, [49.000000000000007]. *)
Lemma periodSamples_rounded :
  PrimFloat.eqb (Binary64.frequency (Binary64.of_nat 1) (Binary64.of_nat 49))
                PrimFloat.zero
  = false
  /\ Binary64.periodSamples (Binary64.of_nat 1) (Binary64.of_nat 49)
     = PrimFloat.next_up (PrimFloat.div (Binary64.of_nat 49) (Binary64.of_nat 1))
  /\ PrimFloat.ltb (PrimFloat.div (Binary64.of_nat 49) (Binary64.of_nat 1))
                   (Binary64.periodSamples (Binary64.of_nat 1) (Binary64.of_nat 49))
     = true.
Proof. repeat split; vm_compute; reflexivity. Qed.

(** C7 (amended): every component has harmonic index [k >= 1], its
    frequency is not zero, so the branch that returns an infinite period is
    not taken, and its [periodSamples], computed as [1 / (k / n)], is
    finite and is [n/k] in exact arithmetic.  In binary64, for every length
    [n <= 1024] and every harmonic [1 <= k <= n / 2], the frequency is not
    zero either, the period is finite, and it is the binary64 quotient
    [n / k] or one of the two binary64 numbers next to it. *)
Theorem periodSamples_finite (values : list number) :
  Forall
    (fun c =>
       (1 <= CycleComponent.index c)%nat
       /\ num_eq (CycleComponent.frequency c) (Fin 0) = false
       /\ CycleComponent.periodSamples c
          = Fin (INR (length values) / INR (CycleComponent.index c))
       /\ Number_isFinite (CycleComponent.periodSamples c) = true)
    (computeCycleComponents values)
  /\ (forall n k,
        (n <= 1024)%nat -> (1 <= k <= n / 2)%nat ->
        Binary64.period_checked (Binary64.of_nat n) (Binary64.of_nat k) = true).
Proof.
  split.
  2:{ intros n k Hn Hk.
      exact (periods_checked_spec 1024 n k periods_checked_1024 Hn Hk). }
  apply Forall_forall. intros c Hc.
  apply (Permutation_in _ (computeCycleComponents_perm _)) in Hc.
  apply in_pushed in Hc. destruct Hc as (k & Hk & ->).
  rewrite harmonic_index, harmonic_frequency, periodSamples_fin by assumption.
  destruct (frequency_fin _ _ Hk) as [-> Hne].
  repeat split; try lia. cbn. now apply Reqb_false.
Qed.

Lemma harmonic_amplitude (centered : list number) (n k : nat) :
  exists z,
    CycleComponent.amplitude (harmonic centered n k)
    = num_div (num_mul (Fin 2) (Math_sqrt z)) (of_nat n).
Proof.
  unfold harmonic. destruct (fold_left _ _ _) as [real imag].
  now eexists.
Qed.

(** X4: whatever the values, also infinite ones or [NaN], no component has
    a negative amplitude. *)
Theorem amplitude_never_negative (values : list number) :
  Forall (fun c => num_lt (CycleComponent.amplitude c) (Fin 0) = false)
         (computeCycleComponents values).
Proof.
  apply Forall_forall. intros c Hc.
  apply (Permutation_in _ (computeCycleComponents_perm _)) in Hc.
  apply in_pushed in Hc. destruct Hc as (k & Hk & ->).
  pose proof (half_le _ _ Hk) as H2.
  assert (Hn : 0 < INR (length values)) by (apply lt_0_INR; lia).
  destruct (harmonic_amplitude
              (map (fun value => num_sub value (mean values)) values)
              (length values) k) as [z ->].
  assert (Hne : Reqb (INR (length values)) 0 = false) by (apply Reqb_false; lra).
  assert (Hlt : Rltb (INR (length values)) 0 = false) by (apply Rltb_false; lra).
  unfold of_nat.
  destruct z as [x| | |]; cbn [Math_sqrt num_mul]; try reflexivity.
  - destruct (Rltb x 0); cbn [num_mul num_div num_lt]; [reflexivity|].
    rewrite Hne. cbn [num_lt]. apply Rltb_false.
    pose proof (sqrt_pos x). apply Rmult_le_pos; [lra|].
    apply Rlt_le. now apply Rinv_0_lt_compat.
  - unfold inf_times.
    assert (H20 : Reqb 2 0 = false) by (apply Reqb_false; lra).
    assert (H02 : Rltb 0 2 = true) by (apply Rltb_true; lra).
    rewrite H20, H02. cbn [Bool.eqb num_div]. now rewrite Hlt.
Qed.

(** X5: the dominant cycles of a decomposition are at most four, in
    descending order of amplitude. *)
Theorem dominant_cycles_of_decomposition (values : list R) (spacing : number) :
  let cycles := dominantCycles (computeCycleComponents (map Fin values)) spacing in
  (length cycles <= 4)%nat /\ dominant_descending cycles.
Proof.
  split; [apply dominantCycles_length|].
  apply dominantCycles_descending. unfold amplitude_descending.
  eapply StronglySorted_weaken; [|apply computeCycleComponents_sorted].
  apply ranked_before_ge.
Qed.

(** ** Selection of the dominant cycles *)

Lemma Rltb_0_1 : Rltb 0 1 = true.
Proof. apply Rltb_true. lra. Qed.

(** C2, as stated, fails: with a sample spacing of [0] the only harmonic of
    a two-sample series is kept with a period of [0] days, which is finite
    but not positive. *)
Lemma dominantCycles_zero_period :
  amplitude_descending [unit_component]
  /\ dominantCycles [unit_component] (Fin 0)
     = [DominantCycle.mk 1 (Fin 1) (Fin 0) (Fin (1 / 2)) (Fin 2) (Fin (2 * 0))]
  /\ num_gt (Fin (2 * 0)) (Fin 0) = false.
Proof.
  split; [repeat constructor|]. split.
  - unfold dominantCycles, unit_component.
    cbn [firstn map to_dominant filter keep_dominant Number_isFinite num_mul
         CycleComponent.index CycleComponent.amplitude CycleComponent.phase
         CycleComponent.frequency CycleComponent.periodSamples
         DominantCycle.periodDays DominantCycle.amplitude andb num_gt num_lt].
    rewrite Rltb_0_1. reflexivity.
  - cbn [num_gt num_lt]. apply Rltb_false. lra.
Qed.

(** C2 (amended): on an amplitude-sorted component list the selection is
    the first 4 of those among the first 6 components whose [periodDays =
    periodSamples × spacing] is finite and whose amplitude is positive; it
    has at most 4 entries, is still amplitude-descending, every entry has
    a finite [periodDays] and an amplitude [> 0], and [periodDays] is
    positive whenever the spacing and the entry's [periodSamples] are; an
    empty list gives an empty list. *)
Theorem dominantCycles_selection (components : list CycleComponent.t)
    (spacing : number) :
  amplitude_descending components ->
  let selected := dominantCycles components spacing in
  selected
  = firstn 4 (filter keep_dominant
                (map (to_dominant spacing) (firstn 6 components)))
  /\ (length selected <= 4)%nat
  /\ dominant_descending selected
  /\ Forall
       (fun d =>
          Number_isFinite (DominantCycle.periodDays d) = true
          /\ num_gt (DominantCycle.amplitude d) (Fin 0) = true
          /\ DominantCycle.periodDays d
             = num_mul (DominantCycle.periodSamples d) spacing
          /\ (num_gt (DominantCycle.periodSamples d) (Fin 0) = true ->
              num_gt spacing (Fin 0) = true ->
              num_gt (DominantCycle.periodDays d) (Fin 0) = true))
       selected
  /\ dominantCycles [] spacing = [].
Proof.
  intros Hs selected.
  split; [reflexivity|].
  split; [apply dominantCycles_length|].
  split; [now apply dominantCycles_descending|].
  split; [|reflexivity].
  apply Forall_forall. intros d Hd.
  apply dominantCycles_entries in Hd. destruct Hd as (Hfin & Hamp & Hpd).
  repeat split; try assumption.
  intros Hp Hsp. rewrite Hpd. now apply num_mul_pos.
Qed.

Lemma two_components_descending : amplitude_descending two_components.
Proof.
  unfold amplitude_descending, two_components.
  repeat constructor. cbn. unfold num_ge, num_gt. cbn.
  assert (H : Rltb 1 2 = true) by (apply Rltb_true; lra).
  now rewrite H.
Qed.

Lemma dominantCycles_selection_witness :
  amplitude_descending two_components
  /\ (length (dominantCycles two_components (Fin 1)) <= 4)%nat
  /\ dominant_descending (dominantCycles two_components (Fin 1)).
Proof.
  split; [exact two_components_descending|].
  destruct (dominantCycles_selection two_components (Fin 1)
              two_components_descending) as (_ & Hlen & Hdesc & _).
  split; [exact Hlen | exact Hdesc].
Defined.

(** X3: with a positive sample spacing every dominant cycle of a
    decomposition has a positive period in days. *)
Theorem dominant_period_positive (values : list number) (spacing : number) :
  num_gt spacing (Fin 0) = true ->
  Forall (fun d => num_gt (DominantCycle.periodDays d) (Fin 0) = true)
         (dominantCycles (computeCycleComponents values) spacing).
Proof.
  intros Hsp. apply Forall_forall. intros d Hd.
  apply in_dominantCycles in Hd. destruct Hd as [_ (c & Hc & ->)].
  cbn [to_dominant DominantCycle.periodDays]. apply num_mul_pos; [|assumption].
  apply (Permutation_in _ (computeCycleComponents_perm _)) in Hc.
  apply in_pushed in Hc. destruct Hc as (k & Hk & ->).
  rewrite periodSamples_fin by assumption.
  pose proof (half_le _ _ Hk).
  cbn [num_gt num_lt]. apply Rltb_true. unfold Rdiv. apply Rmult_lt_0_compat.
  - apply lt_0_INR. lia.
  - apply Rinv_0_lt_compat. apply lt_0_INR. lia.
Qed.

Lemma dominant_period_positive_witness :
  Forall (fun d => num_gt (DominantCycle.periodDays d) (Fin 0) = true)
         (dominantCycles (computeCycleComponents [Fin 1; Fin (-1)]) (Fin 1)).
Proof.
  apply (dominant_period_positive [Fin 1; Fin (-1)] (Fin 1)).
  exact Rltb_0_1.
Defined.

(** ** The weighted average period *)

Lemma amplitude_sum_from (cycles : list DominantCycle.t) (acc : number) :
  acc = PosInf \/ (exists x, acc = Fin x /\ 0 <= x) ->
  Forall (fun c => num_gt (DominantCycle.amplitude c) (Fin 0) = true) cycles ->
  let total :=
    fold_left (fun acc component => num_add acc (DominantCycle.amplitude component))
              cycles acc in
  (total = PosInf \/ exists x, total = Fin x /\ 0 <= x)
  /\ (cycles <> [] -> num_gt total (Fin 0) = true).
Proof.
  intros Hacc Hall. revert acc Hacc.
  induction Hall as [|c cycles Hc _ IH]; intros acc Hacc; cbn [fold_left].
  - split; [exact Hacc | contradiction].
  - assert (Hnext : num_add acc (DominantCycle.amplitude c) = PosInf
                    \/ exists x, num_add acc (DominantCycle.amplitude c) = Fin x
                                 /\ 0 < x).
    { destruct (DominantCycle.amplitude c) as [a| | |]; try discriminate.
      - cbn in Hc. apply Rltb_true in Hc.
        destruct Hacc as [-> | (x & -> & Hx)]; [now left|].
        right. exists (x + a). split; [reflexivity | lra].
      - destruct Hacc as [-> | (x & -> & Hx)]; now left. }
    assert (Hweak : num_add acc (DominantCycle.amplitude c) = PosInf
                    \/ exists x, num_add acc (DominantCycle.amplitude c) = Fin x
                                 /\ 0 <= x).
    { destruct Hnext as [H | (x & H & Hx)]; [now left|].
      right. exists x. split; [exact H | lra]. }
    destruct (IH _ Hweak) as [Hshape Hpos]. split; [exact Hshape|].
    intros _. destruct cycles as [|c' cycles]; [|apply Hpos; discriminate].
    cbn [fold_left]. destruct Hnext as [-> | (x & -> & Hx)]; [reflexivity|].
    cbn. now apply Rltb_true.
Qed.

(** C3, as stated, fails: the result can be [NaN].  For 32 closes that
    alternate between [2^700] and [-2^700] the square of the sum of harmonic
    16 overflows, so its amplitude is [Infinity]; [Infinity > 0] holds and
    its period of two days is finite, so the selection keeps it; the
    aggregator then divides [Infinity] by [Infinity]. *)
Lemma weightedPeriod_overflow :
  Binary64.CycleComponent.amplitude Binary64.overflowing_component
  = PrimFloat.infinity
  /\ Binary64.dominantCycles [Binary64.overflowing_component] PrimFloat.one
     = [Binary64.overflowing_cycle]
  /\ exists w,
       Binary64.weightedPeriod [Binary64.overflowing_cycle] = Some w
       /\ PrimFloat.is_nan w = true.
Proof.
  split; [vm_compute; reflexivity|]. split; [vm_compute; reflexivity|].
  eexists. split; vm_compute; reflexivity.
Qed.

(** C3 (amended): on every list the selection returns, [weightedPeriod]
    is [Σ(periodDays_i × amplitude_i) / Σ(amplitude_i)] and is absent if
    and only if the list is empty.  The amplitude sum of a non-empty
    selection is positive, every amplitude having passed [amplitude > 0],
    so "empty or amplitude sum exactly zero" names the same lists and no
    division by zero takes place.  The value itself is not guarded
    against overflow. *)
Theorem weightedPeriod_of_selection (components : list CycleComponent.t)
    (spacing : number) :
  let cycles := dominantCycles components spacing in
  (weightedPeriod cycles = None <-> cycles = [])
  /\ (weightedPeriod cycles = None
      <-> cycles = [] \/ num_eq (amplitude_sum cycles) (Fin 0) = true)
  /\ (cycles <> [] ->
      num_gt (amplitude_sum cycles) (Fin 0) = true
      /\ weightedPeriod cycles
         = Some (num_div (weighted_sum cycles) (amplitude_sum cycles))).
Proof.
  intros cycles.
  assert (Hall : Forall (fun c => num_gt (DominantCycle.amplitude c) (Fin 0) = true)
                        cycles).
  { apply Forall_forall. intros d Hd.
    now destruct (dominantCycles_entries components spacing d Hd) as (_ & Hgt & _). }
  assert (Hpos : cycles <> [] -> num_gt (amplitude_sum cycles) (Fin 0) = true).
  { apply (amplitude_sum_from cycles (Fin 0)); [|exact Hall].
    right. exists 0. split; [reflexivity | lra]. }
  split; [apply weightedPeriod_none|]. split.
  - split.
    + intros H. left. now apply weightedPeriod_none.
    + intros [H | H]; [now apply weightedPeriod_none|].
      destruct cycles as [|d rest] eqn:Hc; [reflexivity|].
      assert (Hgt : num_gt (amplitude_sum (d :: rest)) (Fin 0) = true)
        by (apply Hpos; discriminate).
      exfalso. destruct (amplitude_sum (d :: rest)) as [x| | |]; try discriminate.
      cbn in Hgt, H. apply Rltb_true in Hgt. apply Reqb_true in H. lra.
  - intros Hne. split; [now apply Hpos|].
    unfold weightedPeriod. destruct cycles as [|d rest]; [contradiction|].
    reflexivity.
Qed.

Lemma two_cycles_nonempty : two_cycles <> [].
Proof. discriminate. Qed.

(** C8, as stated, fails in binary64.  For samples 72 minutes apart the
    harmonic 16 of 32 samples has a period of [2 * 0.05 = 0.1] days; with
    amplitude [3] it is the only dominant cycle, the amplitude sum [3] is
    not zero, and the aggregator returns [(0 + 0.1 * 3) / (0 + 3)], which
    is not [0.1] but the next binary64 number above it: the average is
    greater than the largest period of the list. *)
Lemma weightedPeriod_above_maximum :
  Binary64.dominantCycles [Binary64.fastest_component] Binary64.spacing_72_minutes
  = [Binary64.fastest_cycle]
  /\ PrimFloat.eqb (Binary64.amplitude_sum [Binary64.fastest_cycle]) PrimFloat.zero
     = false
  /\ Binary64.weightedPeriod [Binary64.fastest_cycle]
     = Some (PrimFloat.next_up
               (Binary64.DominantCycle.periodDays Binary64.fastest_cycle))
  /\ PrimFloat.ltb (Binary64.DominantCycle.periodDays Binary64.fastest_cycle)
                   (PrimFloat.next_up
                      (Binary64.DominantCycle.periodDays Binary64.fastest_cycle))
     = true.
Proof. repeat split; vm_compute; reflexivity. Qed.

(** C8 (amended): in exact arithmetic, on a non-empty list of cycles with
    finite periods and finite amplitudes [>= 0] whose amplitude sum is not
    zero, [weightedPeriod] returns a number between the smallest and the
    largest [periodDays] of the list.  The binary64 value is this number
    rounded at each operation and can leave the interval in the last
    digits. *)
Theorem weightedPeriod_between (cycles : list DominantCycle.t) :
  cycles <> [] ->
  Forall finite_cycle cycles ->
  Forall (fun c => num_lt (DominantCycle.amplitude c) (Fin 0) = false) cycles ->
  amplitude_sum cycles <> Fin 0 ->
  exists w,
    weightedPeriod cycles = Some (Fin w)
    /\ MinRlist (map period_R cycles) <= w <= MaxRlist (map period_R cycles).
Proof.
  intros Hne Hfin Hnn Hsum.
  assert (Hr : Rsum (map amplitude_R cycles) <> 0).
  { intros H0. apply Hsum. rewrite amplitude_sum_fin by assumption. now rewrite H0. }
  exists (weighted_average cycles). split.
  - now apply weightedPeriod_fin.
  - apply weighted_average_between; [|assumption].
    apply Forall_forall. intros c Hc. rewrite Forall_forall in Hfin, Hnn.
    destruct (Hfin c Hc) as [_ Hf]. specialize (Hnn c Hc).
    unfold amplitude_R. rewrite (isFinite_to_R _ Hf) in Hnn.
    cbn in Hnn. now apply Rltb_false in Hnn.
Qed.

Lemma two_cycles_finite : Forall finite_cycle two_cycles.
Proof. unfold two_cycles, finite_cycle. repeat constructor. Qed.

Lemma two_cycles_nonnegative :
  Forall (fun c => num_lt (DominantCycle.amplitude c) (Fin 0) = false) two_cycles.
Proof.
  unfold two_cycles. repeat constructor; cbn; apply Rltb_false; lra.
Qed.

Lemma two_cycles_sum : amplitude_sum two_cycles <> Fin 0.
Proof.
  unfold amplitude_sum, two_cycles. cbn. intros H. injection H as H. lra.
Qed.

Lemma weightedPeriod_between_witness :
  exists w,
    weightedPeriod two_cycles = Some (Fin w)
    /\ MinRlist (map period_R two_cycles) <= w
       <= MaxRlist (map period_R two_cycles).
Proof.
  exact (weightedPeriod_between two_cycles two_cycles_nonempty
           two_cycles_finite two_cycles_nonnegative two_cycles_sum).
Defined.

(** ** Linear series *)

Lemma Rsum_const {A : Type} (c : R) (l : list A) :
  Rsum (map (fun _ => c) l) = INR (length l) * c.
Proof.
  induction l as [|x l IH]; [cbn; lra|].
  cbn [map Rsum fold_right]. fold (Rsum (map (fun _ : A => c) l)).
  rewrite IH. change (length (x :: l)) with (S (length l)). rewrite S_INR. ring.
Qed.

Lemma Rsum_scale {A : Type} (b : R) (f : A -> R) (l : list A) :
  Rsum (map (fun x => b * f x) l) = b * Rsum (map f l).
Proof.
  induction l as [|x l IH]; [cbn; lra|].
  cbn [map Rsum fold_right]. fold (Rsum (map (fun x => b * f x) l)).
  fold (Rsum (map f l)). rewrite IH. ring.
Qed.

Lemma Rmean_affine (a b : R) (xs : list R) :
  xs <> [] -> Rmean (map (fun x => a + b * x) xs) = a + b * Rmean xs.
Proof.
  intros Hne. unfold Rmean. rewrite length_map.
  assert (Hn : INR (length xs) <> 0)
    by (apply not_0_INR; destruct xs; [contradiction | discriminate]).
  assert (Hs : Rsum (map (fun x => a + b * x) xs)
               = INR (length xs) * a + b * Rsum xs).
  { clear. induction xs as [|x xs IH]; [cbn; lra|].
    cbn [map Rsum fold_right]. fold (Rsum (map (fun x => a + b * x) xs)).
    fold (Rsum xs). rewrite IH. change (length (x :: xs)) with (S (length xs)).
    rewrite S_INR. ring. }
  rewrite Hs. field. exact Hn.
Qed.

(** X2: a series that is linear in the elapsed days, [value = a + b·days],
    has slope [b], as soon as two samples differ in time. *)
Theorem linear_series (a b : R) (stamps : list R) :
  let samples :=
    map (fun t => (t, a + b * ((t - hd 0 stamps) / 86400))) stamps in
  ols_denominator (elapsed_days samples) <> 0 ->
  computeTrendSlope (map of_sample samples) = Ok (Fin b).
Proof.
  intros samples Hd. rewrite computeTrendSlope_fin. do 2 f_equal.
  destruct stamps as [|t0 rest].
  { exfalso. apply Hd. reflexivity. }
  assert (Hx : elapsed_days samples
               = map (fun t => (t - t0) / 86400) (t0 :: rest)).
  { unfold samples, elapsed_days. cbn [map hd fst]. rewrite map_map. reflexivity. }
  assert (Hy : map snd samples
               = map (fun x => a + b * x) (elapsed_days samples)).
  { rewrite Hx. unfold samples. rewrite !map_map. reflexivity. }
  unfold ols_slope.
  destruct (length samples <? 2)%nat eqn:Hn.
  { exfalso. apply Hd. unfold samples in Hn. rewrite length_map in Hn.
    destruct rest as [|t1 rest']; [|discriminate].
    rewrite Hx. unfold ols_denominator, Rmean, Rsum.
    cbn [map fold_right length INR]. field. }
  apply Reqb_false in Hd as Hb. rewrite Hb.
  assert (Hnum : ols_numerator (elapsed_days samples) (map snd samples)
                 = b * ols_denominator (elapsed_days samples)).
  { rewrite Hy. set (xs := elapsed_days samples).
    assert (Hne : xs <> []) by (unfold xs; rewrite Hx; discriminate).
    unfold ols_numerator, ols_denominator. rewrite Rmean_affine by assumption.
    rewrite <- Rsum_scale.
    rewrite <- (index_sum_combine
                  (fun x y => (x - Rmean xs) * (y - (a + b * Rmean xs))))
      by now rewrite length_map.
    rewrite <- (map_nth_seq (fun x => b * ((x - Rmean xs) * (x - Rmean xs))) 0 xs).
    f_equal. apply map_ext_in. intros i Hi. apply in_seq in Hi.
    rewrite (nth_indep (map _ xs) 0 ((fun x => a + b * x) 0))
      by (rewrite length_map; lia).
    rewrite (map_nth (fun x => a + b * x)). ring. }
  rewrite Hnum. field. exact Hd.
Qed.

Lemma linear_series_witness :
  computeTrendSlope
    (map of_sample
       (map (fun t => (t, 1 + 2 * ((t - hd 0 [0; 86400]) / 86400))) [0; 86400]))
  = Ok (Fin 2).
Proof.
  apply (linear_series 1 2 [0; 86400]).
  unfold ols_denominator, elapsed_days, Rmean, Rsum.
  cbn [map hd fst fold_right length INR]. intros H. field_simplify in H. lra.
Defined.

(** ** The summary *)

Section SummaryClaims.
Local Open Scope string_scope.
Variable toFixed : number -> nat -> string.

(** C6: on an empty list [summarizeCycles] returns the fixed message that
    names the asset; otherwise the narrative gives the first cycle's period
    with one decimal and its amplitude with two, then the second cycle's
    period with one decimal when there is a second cycle and else the
    sentence that no secondary cycle is prominent; it never throws, and
    read from the store it leaves every array as it was. *)
Theorem summarizeCycles_cases (symbol range : string)
    (primary secondary : DominantCycle.t) (rest : list DominantCycle.t) :
  summarizeCycles toFixed symbol [] range
  = Ok (symbol ++ " এর জন্য বাছাই করা সময় সীমায় পর্যাপ্ত তথ্য পাওয়া যায়নি।")
  /\ summarizeCycles toFixed symbol [primary] range
     = Ok (symbol ++ " এর " ++ range ++ " ডেটায় "
           ++ ("মূল চক্র " ++ toFixed (DominantCycle.periodDays primary) 1
          ++ " দিনের কাছাকাছি, যার শক্তি "
          ++ toFixed (DominantCycle.amplitude primary) 2 ++ "।")
           ++ " " ++ "দ্বিতীয় শক্তিশালী চক্র তেমন প্রকট নয়।"
           ++ " এই তথ্যের ভিত্তিতে আপনার এন্ট্রি ও এক্সিট পরিকল্পনা করুন।")
  /\ summarizeCycles toFixed symbol (primary :: secondary :: rest) range
     = Ok (symbol ++ " এর " ++ range ++ " ডেটায় "
           ++ ("মূল চক্র " ++ toFixed (DominantCycle.periodDays primary) 1
          ++ " দিনের কাছাকাছি, যার শক্তি "
          ++ toFixed (DominantCycle.amplitude primary) 2 ++ "।")
           ++ " "
           ++ ("দ্বিতীয় চক্র হিসেবে " ++ toFixed (DominantCycle.periodDays secondary) 1
               ++ " দিনের একটি পুনরাবৃত্তি পাওয়া গেছে।")
           ++ " এই তথ্যের ভিত্তিতে আপনার এন্ট্রি ও এক্সিট পরিকল্পনা করুন।")
  /\ (forall (cycles : ref) (s : store),
        summarizeCyclesM toFixed symbol cycles range s
        = (summarizeCycles toFixed symbol (nth cycles (dominant_arrays s) []) range,
           s)).
Proof.
  split; [reflexivity|]. split; [reflexivity|]. split; [reflexivity|].
  intros cycles s. reflexivity.
Qed.
End SummaryClaims.

(** ** The whole analysis *)

(** C9: the analysis is deterministic and keeps no state: run on the
    samples held in the store, it returns the value of the pure function
    [analyse] of the samples, the spacing and the two labels, whatever
    else the store holds; it leaves the samples and every other array that
    existed before as they were; and a second run, in the store the first
    one left, returns the same result in every field. *)
Theorem analysis_deterministic (toFixed : number -> nat -> string)
    (closes : ref) (spacing : number) (symbol range : string) (s : store) :
  exists out s1 s2,
    analyseM toFixed closes spacing symbol range s = (out, s1)
    /\ analyseM toFixed closes spacing symbol range s1 = (out, s2)
    /\ out = analyse toFixed (nth closes (candle_arrays s) []) spacing symbol range
    /\ nth closes (candle_arrays s1) [] = nth closes (candle_arrays s) []
    /\ store_extends s s1.
Proof.
  destruct (analyseM_run toFixed closes spacing symbol range s)
    as (s1 & Hrun1 & Hext1 & Hsame1).
  destruct (analyseM_run toFixed closes spacing symbol range s1)
    as (s2 & Hrun2 & _ & _).
  rewrite Hsame1 in Hrun2.
  exists (analyse toFixed (nth closes (candle_arrays s) []) spacing symbol range),
         s1, s2.
  split; [exact Hrun1|]. split; [exact Hrun2|]. split; [reflexivity|].
  split; [now rewrite Hsame1 | exact Hext1].
Qed.

(** * Further properties *)

(** ** The samples of [GET] *)

Lemma buildCloses_from (timestamps : list number)
    (quoteClose : list (option number)) (k : nat) :
  filter_Boolean
    (map (fun '(index, stamp) =>
            match nth_error quoteClose index with
            | Some (Some closeValue) => Some (mkCandlePoint stamp closeValue)
            | _ => None
            end)
         (combine (seq k (length timestamps)) timestamps))
  = paired_closes timestamps (skipn k quoteClose).
Proof.
  revert k. induction timestamps as [|stamp timestamps IH]; intros k.
  - reflexivity.
  - cbn [length seq combine map filter_Boolean flat_map].
    fold (filter_Boolean (A := CandlePoint)).
    change (flat_map _ ?l) with (filter_Boolean l).
    rewrite IH. rewrite <- (Nat.add_0_r k) at 1. rewrite <- nth_error_skipn.
    destruct (skipn k quoteClose) as [|c rest] eqn:Hk.
    + cbn [nth_error app paired_closes].
      assert (Hs : skipn (S k) quoteClose = []).
      { change (S k) with (1 + k)%nat. now rewrite <- skipn_skipn, Hk. }
      rewrite Hs. now destruct timestamps.
    + assert (Hs : skipn (S k) quoteClose = rest).
      { change (S k) with (1 + k)%nat. now rewrite <- skipn_skipn, Hk. }
      rewrite Hs. cbn [nth_error]. destruct c; reflexivity.
Qed.

Lemma buildCloses_paired (timestamps : list number)
    (quoteClose : list (option number)) :
  buildCloses timestamps quoteClose = paired_closes timestamps quoteClose.
Proof. unfold buildCloses. now rewrite buildCloses_from. Qed.

Lemma in_paired_closes (timestamps : list number)
    (quoteClose : list (option number)) (p : CandlePoint) :
  In p (paired_closes timestamps quoteClose)
  <-> exists i, nth_error timestamps i = Some (timestamp p)
                /\ nth_error quoteClose i = Some (Some (close p)).
Proof.
  revert quoteClose.
  induction timestamps as [|stamp timestamps IH]; intros quoteClose.
  - cbn. split; [contradiction|]. intros (i & H & _). now destruct i.
  - destruct quoteClose as [|[closeValue|] quoteClose]; cbn [paired_closes].
    + split; [contradiction|]. intros (i & _ & H). now destruct i.
    + cbn [In]. rewrite IH. split.
      * intros [<-|(i & H1 & H2)]; [now exists 0%nat | now exists (S i)].
      * intros ([|i] & H1 & H2); cbn in H1, H2.
        -- left. destruct p. cbn in *. congruence.
        -- right. now exists i.
    + rewrite IH. split.
      * intros (i & H1 & H2). now exists (S i).
      * intros ([|i] & H1 & H2); cbn in H1, H2; [discriminate | now exists i].
Qed.

Lemma length_paired_closes (timestamps : list number)
    (quoteClose : list (option number)) :
  (length (paired_closes timestamps quoteClose) <= length timestamps)%nat
  /\ (length (paired_closes timestamps quoteClose) <= length quoteClose)%nat.
Proof.
  revert quoteClose.
  induction timestamps as [|stamp timestamps IH]; intros quoteClose.
  - cbn. lia.
  - destruct quoteClose as [|[closeValue|] quoteClose]; cbn [paired_closes length];
      try lia; destruct (IH quoteClose); lia.
Qed.

(** X6: the samples [GET] analyses are exactly the pairs of the timestamp
    and the close at the same index of the upstream arrays, for the indices
    where the close is present and not [null]; there are at most as many as
    timestamps and as closes, and when every timestamp has a close that is
    not [null], none is dropped. *)
Theorem buildCloses_aligned (timestamps : list number)
    (quoteClose : list (option number)) :
  (forall p,
      In p (buildCloses timestamps quoteClose)
      <-> exists i, nth_error timestamps i = Some (timestamp p)
                    /\ nth_error quoteClose i = Some (Some (close p)))
  /\ (length (buildCloses timestamps quoteClose) <= length timestamps)%nat
  /\ (length (buildCloses timestamps quoteClose) <= length quoteClose)%nat
  /\ (forall values : list number,
        length values = length timestamps ->
        buildCloses timestamps (map Some values)
        = map (fun tv => mkCandlePoint (fst tv) (snd tv))
              (combine timestamps values)).
Proof.
  rewrite buildCloses_paired.
  split; [intros p; apply in_paired_closes|].
  split; [apply length_paired_closes|].
  split; [apply length_paired_closes|].
  intros values. rewrite buildCloses_paired. revert values.
  induction timestamps as [|stamp timestamps IH]; intros [|v values] Hlen;
    try discriminate; [reflexivity|].
  cbn [map paired_closes combine fst snd]. f_equal. apply IH.
  now injection Hlen.
Qed.

Lemma buildCloses_aligned_witness :
  buildCloses [Fin 1; Fin 2] (map Some [Fin 10; Fin 20])
  = map (fun tv => mkCandlePoint (fst tv) (snd tv))
        (combine [Fin 1; Fin 2] [Fin 10; Fin 20]).
Proof.
  destruct (buildCloses_aligned [Fin 1; Fin 2] [Some (Fin 10); Some (Fin 20)])
    as (_ & _ & _ & H).
  exact (H [Fin 10; Fin 20] eq_refl).
Defined.

(** X7: dropping the samples without a close keeps the order of time: if
    the upstream timestamps increase strictly, so do the timestamps of the
    samples [GET] analyses. *)
Theorem buildCloses_increasing (timestamps : list number)
    (quoteClose : list (option number)) :
  increasing_stamps timestamps ->
  increasing_stamps (map timestamp (buildCloses timestamps quoteClose)).
Proof.
  rewrite buildCloses_paired. unfold increasing_stamps.
  revert quoteClose.
  induction timestamps as [|stamp timestamps IH]; intros quoteClose Hs.
  - constructor.
  - apply StronglySorted_inv in Hs. destruct Hs as [Hs Hall].
    destruct quoteClose as [|[closeValue|] quoteClose]; cbn [paired_closes map].
    + constructor.
    + constructor; [now apply IH|]. cbn [timestamp].
      apply Forall_forall. intros t Ht. apply in_map_iff in Ht.
      destruct Ht as (p & <- & Hp). apply in_paired_closes in Hp.
      destruct Hp as (i & Hi & _). apply nth_error_In in Hi.
      rewrite Forall_forall in Hall. now apply Hall.
    + now apply IH.
Qed.

Lemma increasing_three :
  increasing_stamps [Fin 1; Fin 2; Fin 3].
Proof.
  unfold increasing_stamps.
  repeat constructor; cbn [num_lt]; apply Rltb_true; lra.
Qed.

Lemma buildCloses_increasing_witness :
  increasing_stamps
    (map timestamp
       (buildCloses [Fin 1; Fin 2; Fin 3] [Some (Fin 5); None; Some (Fin 7)])).
Proof.
  exact (buildCloses_increasing [Fin 1; Fin 2; Fin 3]
           [Some (Fin 5); None; Some (Fin 7)] increasing_three).
Defined.

Lemma timestamp_at_fin (samples : list (R * R)) (i : nat) :
  (i < length samples)%nat ->
  timestamp_at (map of_sample samples) i = Fin (fst (nth i samples (0, 0))).
Proof.
  intros Hi. unfold timestamp_at.
  rewrite (nth_indep _ _ (of_sample (0, 0))) by now rewrite length_map.
  now rewrite (map_nth of_sample).
Qed.

Lemma secondsDiffs_fin (samples : list (R * R)) :
  secondsDiffs (map of_sample samples)
  = map Fin
      (map (fun i => fst (nth i samples (0, 0)) - fst (nth (i - 1) samples (0, 0)))
           (seq 1 (length samples - 1))).
Proof.
  unfold secondsDiffs. rewrite length_map, map_map.
  apply map_ext_in. intros i Hi. apply in_seq in Hi.
  rewrite !timestamp_at_fin by lia. reflexivity.
Qed.

Lemma Rsum_telescope (f : nat -> R) (m : nat) :
  Rsum (map (fun i => f i - f (i - 1)%nat) (seq 1 m)) = f m - f 0%nat.
Proof.
  induction m as [|m IH]; [cbn; lra|].
  rewrite seq_S, map_app, Rsum_app, IH. cbn [map Rsum fold_right Nat.add].
  replace (S m - 1)%nat with m by lia. lra.
Qed.

Lemma last_nth {A : Type} (l : list A) (d : A) :
  last l d = nth (length l - 1) l d.
Proof.
  induction l as [|x l IH]; [reflexivity|].
  destruct l as [|y l]; [reflexivity|].
  change (last (x :: y :: l) d) with (last (y :: l) d). rewrite IH.
  cbn [length Nat.sub nth]. now rewrite Nat.sub_0_r.
Qed.

Lemma samplePeriodDays_fin (samples : list (R * R)) :
  samplePeriodDays (map of_sample samples)
  = Fin (if (length samples <? 2)%nat then 1
         else (fst (last samples (0, 0)) - fst (hd (0, 0) samples))
              / INR (length samples - 1) / 86400).
Proof.
  unfold samplePeriodDays. rewrite secondsDiffs_fin, !length_map, length_seq.
  destruct samples as [|s0 [|s1 rest]].
  - cbn [length Nat.sub Nat.ltb Nat.leb].
    rewrite num_div_fin by lra. f_equal. field.
  - cbn [length Nat.sub Nat.ltb Nat.leb].
    rewrite num_div_fin by lra. f_equal. field.
  - remember (s0 :: s1 :: rest) as samples eqn:Hs.
    assert (Hn : (2 <= length samples)%nat) by (subst; cbn; lia).
    assert (H0 : (0 <? length samples - 1)%nat = true) by (apply Nat.ltb_lt; lia).
    assert (H2 : (length samples <? 2)%nat = false) by (apply Nat.ltb_ge; lia).
    rewrite H0, H2, sum_fin.
    rewrite (Rsum_telescope (fun i => fst (nth i samples (0, 0)))).
    unfold of_nat.
    assert (Hne : INR (length samples - 1) <> 0) by (apply not_0_INR; lia).
    rewrite !num_div_fin by (assumption || lra).
    rewrite last_nth. subst samples. reflexivity.
Qed.

(** X8: the sample spacing [GET] uses depends on the first and the last
    timestamp only: with at least two samples it is
    [(last - first) / (n - 1)] seconds, in days; with fewer it is one
    day. *)
Theorem samplePeriodDays_first_last (samples : list (R * R)) :
  samplePeriodDays (map of_sample samples)
  = Fin (if (length samples <? 2)%nat then 1
         else (fst (last samples (0, 0)) - fst (hd (0, 0) samples))
              / INR (length samples - 1) / 86400).
Proof. apply samplePeriodDays_fin. Qed.






(** ** The decomposition of a sinusoid *)

Lemma Rsum_shifted (f : nat -> R) (n : nat) :
  Rsum (map (fun t => f (S t) - f t) (seq 0 n)) = f n - f 0%nat.
Proof.
  rewrite <- (Rsum_telescope f n), <- seq_shift, map_map.
  f_equal. apply map_ext. intros t. cbn [Nat.sub]. now rewrite Nat.sub_0_r.
Qed.

(** The sum of a cosine over [j] whole periods, [0 < j < n], is zero. *)
Lemma cos_sum_zero (n j : nat) (phi : R) :
  (0 < j < n)%nat ->
  Rsum (map (fun t => cos (2 * PI * INR j * INR t / INR n + phi)) (seq 0 n)) = 0.
Proof.
  intros Hj.
  assert (Hn : 0 < INR n) by (apply lt_0_INR; lia).
  assert (Hj0 : 0 < INR j) by (apply lt_0_INR; lia).
  assert (Hjn : INR j < INR n) by (apply lt_INR; lia).
  set (theta := 2 * PI * INR j / INR n).
  set (f := fun i : nat => sin ((INR i - 1 / 2) * theta + phi)).
  assert (Hhalf : 0 < sin (theta / 2)).
  { pose proof PI_RGT_0 as Hpi.
    assert (Hjn' : INR j / INR n < 1).
    { apply (Rmult_lt_reg_r (INR n)); [assumption|]. field_simplify; lra. }
    assert (Hjn'' : 0 < INR j / INR n).
    { unfold Rdiv. apply Rmult_lt_0_compat; [assumption|].
      now apply Rinv_0_lt_compat. }
    replace (theta / 2) with (PI * (INR j / INR n)) by (unfold theta; field; lra).
    apply sin_gt_0; nra. }
  assert (Hterm : forall t,
             f (S t) - f t
             = sin (theta / 2) * (2 * cos (2 * PI * INR j * INR t / INR n + phi))).
  { intros t. unfold f. rewrite form4, S_INR.
    replace (((INR t + 1 - 1 / 2) * theta + phi
              + ((INR t - 1 / 2) * theta + phi)) / 2)
      with (2 * PI * INR j * INR t / INR n + phi) by (unfold theta; field; lra).
    replace (((INR t + 1 - 1 / 2) * theta + phi
              - ((INR t - 1 / 2) * theta + phi)) / 2)
      with (theta / 2) by field.
    ring. }
  assert (Hends : f n - f 0%nat = 0).
  { unfold f. cbn [INR].
    replace ((INR n - 1 / 2) * theta + phi)
      with ((0 - 1 / 2) * theta + phi + 2 * INR j * PI)
      by (unfold theta; field; lra).
    rewrite sin_period. ring. }
  pose proof (Rsum_shifted f n) as Hsum. rewrite Hends in Hsum.
  rewrite (map_ext _ _ Hterm) in Hsum.
  rewrite (Rsum_scale (sin (theta / 2))
             (fun t => 2 * cos (2 * PI * INR j * INR t / INR n + phi))) in Hsum.
  rewrite (Rsum_scale 2) in Hsum.
  apply Rmult_integral in Hsum. destruct Hsum as [Hsum|Hsum]; [lra|].
  lra.
Qed.

(** The same sum for a frequency difference [a - b] of either sign. *)
Lemma cos_sum_diff (n a b : nat) (phi : R) :
  (a < n)%nat -> (b < n)%nat -> a <> b ->
  Rsum (map (fun t => cos (2 * PI * (INR a - INR b) * INR t / INR n + phi))
            (seq 0 n)) = 0.
Proof.
  intros Ha Hb Hab.
  destruct (Nat.lt_ge_cases b a) as [Hlt|Hge].
  - rewrite <- (cos_sum_zero n (a - b) phi) by lia.
    f_equal. apply map_ext. intros t. rewrite minus_INR by lia. reflexivity.
  - rewrite <- (cos_sum_zero n (b - a) (- phi)) by lia.
    f_equal. apply map_ext. intros t. rewrite minus_INR by lia.
    rewrite <- cos_neg. f_equal. unfold Rdiv. ring.
Qed.

Lemma sin_as_cos (y : R) : sin y = cos (y - PI / 2).
Proof. rewrite <- cos_shift, <- cos_neg. f_equal. ring. Qed.

Lemma sin_sum_zero (n j : nat) (phi : R) :
  (0 < j < n)%nat ->
  Rsum (map (fun t => sin (2 * PI * INR j * INR t / INR n + phi)) (seq 0 n)) = 0.
Proof.
  intros Hj. rewrite <- (cos_sum_zero n j (phi - PI / 2) Hj).
  f_equal. apply map_ext. intros t. rewrite sin_as_cos. f_equal. ring.
Qed.

Lemma sin_sum_diff (n a b : nat) (phi : R) :
  (a < n)%nat -> (b < n)%nat -> a <> b ->
  Rsum (map (fun t => sin (2 * PI * (INR a - INR b) * INR t / INR n + phi))
            (seq 0 n)) = 0.
Proof.
  intros Ha Hb Hab. rewrite <- (cos_sum_diff n a b (phi - PI / 2) Ha Hb Hab).
  f_equal. apply map_ext. intros t. rewrite sin_as_cos. f_equal. ring.
Qed.

Lemma Rsum_plus {A : Type} (f g : A -> R) (l : list A) :
  Rsum (map (fun x => f x + g x) l) = Rsum (map f l) + Rsum (map g l).
Proof.
  induction l as [|x l IH]; [cbn; lra|].
  cbn [map Rsum fold_right]. fold (Rsum (map (fun x => f x + g x) l)).
  fold (Rsum (map f l)). fold (Rsum (map g l)). rewrite IH. ring.
Qed.

Lemma length_sinusoid (n m : nat) (c A phi : R) :
  length (sinusoid n m c A phi) = n.
Proof. unfold sinusoid. now rewrite length_map, length_seq. Qed.

Lemma Rmean_sinusoid (n m : nat) (c A phi : R) :
  (0 < m < n)%nat -> Rmean (sinusoid n m c A phi) = c.
Proof.
  intros Hm. unfold Rmean. rewrite length_sinusoid. unfold sinusoid.
  rewrite (Rsum_plus (fun _ => c)
             (fun t => A * cos (2 * PI * INR m * INR t / INR n + phi))).
  rewrite Rsum_const, Rsum_scale, cos_sum_zero, length_seq by assumption.
  field. apply not_0_INR. lia.
Qed.

Lemma centered_sinusoid (n m : nat) (c A phi : R) (t : nat) :
  (0 < m < n)%nat -> (t < n)%nat ->
  nth t (centered_values (sinusoid n m c A phi)) 0
  = A * cos (2 * PI * INR m * INR t / INR n + phi).
Proof.
  intros Hm Ht. unfold centered_values. rewrite Rmean_sinusoid by assumption.
  unfold sinusoid. rewrite map_map.
  rewrite (nth_indep _ 0
             ((fun t => c + A * cos (2 * PI * INR m * INR t / INR n + phi) - c) 0%nat))
    by now rewrite length_map, length_seq.
  rewrite (map_nth (fun t => c + A * cos (2 * PI * INR m * INR t / INR n + phi) - c)).
  rewrite seq_nth by assumption. cbn [Nat.add]. ring.
Qed.

Lemma dft_real_sinusoid (n m k : nat) (c A phi : R) :
  (0 < m)%nat -> (2 * m < n)%nat -> (1 <= k <= n / 2)%nat ->
  dft_real (sinusoid n m c A phi) k
  = if (k =? m)%nat then A * INR n / 2 * cos phi else 0.
Proof.
  intros Hm Hmn Hk. pose proof (half_le _ _ Hk) as Hkn.
  unfold dft_real. rewrite length_sinusoid.
  assert (Hterm : forall t, In t (seq 0 n) ->
    nth t (centered_values (sinusoid n m c A phi)) 0 * cos (dft_theta n k t)
    = A / 2 * cos (2 * PI * INR (m + k) * INR t / INR n + phi)
      + A / 2 * cos (2 * PI * (INR m - INR k) * INR t / INR n + phi)).
  { intros t Ht. apply in_seq in Ht.
    rewrite centered_sinusoid by lia. unfold dft_theta. rewrite cos_neg.
    set (a := 2 * PI * INR m * INR t / INR n + phi).
    set (b := 2 * PI * INR k * INR t / INR n).
    replace (2 * PI * INR (m + k) * INR t / INR n + phi) with (a + b)
      by (unfold a, b; rewrite plus_INR; unfold Rdiv; ring).
    replace (2 * PI * (INR m - INR k) * INR t / INR n + phi) with (a - b)
      by (unfold a, b; unfold Rdiv; ring).
    rewrite cos_plus, cos_minus. field. }
  rewrite (map_ext_in _ _ _ Hterm).
  rewrite (Rsum_plus
             (fun t => A / 2 * cos (2 * PI * INR (m + k) * INR t / INR n + phi))
             (fun t => A / 2 * cos (2 * PI * (INR m - INR k) * INR t / INR n + phi))).
  rewrite !Rsum_scale, cos_sum_zero by lia.
  destruct (k =? m)%nat eqn:Hkm.
  - apply Nat.eqb_eq in Hkm. subst k.
    assert (Hc : map (fun t => cos (2 * PI * (INR m - INR m) * INR t / INR n + phi))
                     (seq 0 n)
                 = map (fun _ => cos phi) (seq 0 n)).
    { apply map_ext. intros t. f_equal. unfold Rdiv. ring. }
    rewrite Hc, Rsum_const, length_seq. field.
  - apply Nat.eqb_neq in Hkm. rewrite cos_sum_diff by lia. ring.
Qed.

Lemma dft_imag_sinusoid (n m k : nat) (c A phi : R) :
  (0 < m)%nat -> (2 * m < n)%nat -> (1 <= k <= n / 2)%nat ->
  dft_imag (sinusoid n m c A phi) k
  = if (k =? m)%nat then A * INR n / 2 * sin phi else 0.
Proof.
  intros Hm Hmn Hk. pose proof (half_le _ _ Hk) as Hkn.
  unfold dft_imag. rewrite length_sinusoid.
  assert (Hterm : forall t, In t (seq 0 n) ->
    nth t (centered_values (sinusoid n m c A phi)) 0 * sin (dft_theta n k t)
    = - (A / 2) * sin (2 * PI * INR (m + k) * INR t / INR n + phi)
      + A / 2 * sin (2 * PI * (INR m - INR k) * INR t / INR n + phi)).
  { intros t Ht. apply in_seq in Ht.
    rewrite centered_sinusoid by lia. unfold dft_theta. rewrite sin_neg.
    set (a := 2 * PI * INR m * INR t / INR n + phi).
    set (b := 2 * PI * INR k * INR t / INR n).
    replace (2 * PI * INR (m + k) * INR t / INR n + phi) with (a + b)
      by (unfold a, b; rewrite plus_INR; unfold Rdiv; ring).
    replace (2 * PI * (INR m - INR k) * INR t / INR n + phi) with (a - b)
      by (unfold a, b; unfold Rdiv; ring).
    rewrite sin_plus, sin_minus. field. }
  rewrite (map_ext_in _ _ _ Hterm).
  rewrite (Rsum_plus
             (fun t => - (A / 2) * sin (2 * PI * INR (m + k) * INR t / INR n + phi))
             (fun t => A / 2 * sin (2 * PI * (INR m - INR k) * INR t / INR n + phi))).
  rewrite !Rsum_scale, sin_sum_zero by lia.
  destruct (k =? m)%nat eqn:Hkm.
  - apply Nat.eqb_eq in Hkm. subst k.
    assert (Hc : map (fun t => sin (2 * PI * (INR m - INR m) * INR t / INR n + phi))
                     (seq 0 n)
                 = map (fun _ => sin phi) (seq 0 n)).
    { apply map_ext. intros t. f_equal. unfold Rdiv. ring. }
    rewrite Hc, Rsum_const, length_seq. field.
  - apply Nat.eqb_neq in Hkm. rewrite sin_sum_diff by lia. ring.
Qed.

Lemma dft_amplitude_sinusoid (n m k : nat) (c A phi : R) :
  (0 < m)%nat -> (2 * m < n)%nat -> (1 <= k <= n / 2)%nat ->
  dft_amplitude (sinusoid n m c A phi) k = if (k =? m)%nat then Rabs A else 0.
Proof.
  intros Hm Hmn Hk. unfold dft_amplitude.
  rewrite dft_real_sinusoid, dft_imag_sinusoid, length_sinusoid by assumption.
  assert (Hn : 0 < INR n) by (apply lt_0_INR; lia).
  destruct (k =? m)%nat.
  - replace (A * INR n / 2 * cos phi * (A * INR n / 2 * cos phi)
             + A * INR n / 2 * sin phi * (A * INR n / 2 * sin phi))
      with (Rsqr (A * INR n / 2) * (Rsqr (sin phi) + Rsqr (cos phi)))
      by (unfold Rsqr; field).
    rewrite sin2_cos2, Rmult_1_r, sqrt_Rsqr_abs.
    replace (A * INR n / 2) with (A * (INR n / 2)) by field.
    rewrite Rabs_mult, (Rabs_right (INR n / 2)) by lra. field. lra.
  - replace (0 * 0 + 0 * 0) with 0 by ring. rewrite sqrt_0. field. lra.
Qed.

Lemma sinusoid_harmonic (n m k : nat) (c A phi : R) :
  (0 < m)%nat -> (2 * m < n)%nat -> (1 <= k <= n / 2)%nat ->
  CycleComponent.mk k
    (Fin (INR k / INR (length (sinusoid n m c A phi))))
    (Fin (dft_amplitude (sinusoid n m c A phi) k))
    (Fin (atan2 (dft_imag (sinusoid n m c A phi) k) (dft_real (sinusoid n m c A phi) k)))
    (Fin (INR (length (sinusoid n m c A phi)) / INR k))
  = if (k =? m)%nat then sinusoid_component n m A phi
    else CycleComponent.mk k (Fin (INR k / INR n)) (Fin 0) (Fin (atan2 0 0))
           (Fin (INR n / INR k)).
Proof.
  intros Hm Hmn Hk.
  rewrite dft_amplitude_sinusoid, dft_real_sinusoid, dft_imag_sinusoid,
    length_sinusoid by assumption.
  destruct (k =? m)%nat eqn:Hkm; [|reflexivity].
  apply Nat.eqb_eq in Hkm. now subst k.
Qed.

Lemma sinusoid_component_in (n m : nat) (c A phi : R) :
  (0 < m)%nat -> (2 * m < n)%nat ->
  In (sinusoid_component n m A phi)
     (computeCycleComponents (map Fin (sinusoid n m c A phi))).
Proof.
  intros Hm Hmn.
  assert (Hk : (1 <= m <= n / 2)%nat).
  { split; [lia|]. apply Nat.div_le_lower_bound; lia. }
  apply (Permutation_in _ (Permutation_sym (computeCycleComponents_perm _))).
  rewrite pushed_components_map, length_map, centered_fin.
  apply in_map_iff. exists m. split; [|apply in_seq; rewrite length_sinusoid; lia].
  rewrite harmonic_fin by now rewrite length_sinusoid.
  rewrite sinusoid_harmonic by assumption. now rewrite Nat.eqb_refl.
Qed.

(** *** The phase *)

Lemma cos_sign (phi : R) :
  - PI < phi <= PI ->
  (- (PI / 2) < phi < PI / 2 /\ 0 < cos phi)
  \/ ((phi = PI / 2 \/ phi = - (PI / 2)) /\ cos phi = 0)
  \/ ((PI / 2 < phi \/ phi < - (PI / 2)) /\ cos phi < 0).
Proof.
  intros [Hlo Hhi]. pose proof PI_RGT_0 as Hpi.
  destruct (Rtotal_order phi (PI / 2)) as [H1 | [H1 | H1]].
  - destruct (Rtotal_order phi (- (PI / 2))) as [H2 | [H2 | H2]].
    + right. right. split; [now right|].
      rewrite <- cos_neg. apply cos_lt_0; lra.
    + right. left. split; [now right|]. rewrite H2, cos_neg. apply cos_PI2.
    + left. split; [lra|]. apply cos_gt_0; lra.
  - right. left. split; [now left|]. rewrite H1. apply cos_PI2.
  - right. right. split; [now left|]. apply cos_lt_0; lra.
Qed.

Lemma tan_shift (x : R) : cos x <> 0 -> tan (x + PI) = tan x.
Proof. intros H. unfold tan. rewrite neg_sin, neg_cos. now field. Qed.

Lemma atan2_polar (r phi : R) :
  0 < r -> - PI < phi <= PI -> atan2 (r * sin phi) (r * cos phi) = phi.
Proof.
  intros Hr Hphi. pose proof PI_RGT_0 as Hpi. unfold atan2.
  assert (Htan : cos phi <> 0 -> r * sin phi / (r * cos phi) = tan phi).
  { intros Hc. unfold tan. field. split; lra. }
  destruct (cos_sign phi Hphi) as [[Hr1 Hc] | [[Hr1 Hc] | [Hr1 Hc]]].
  - assert (Hx : Rltb 0 (r * cos phi) = true)
      by (apply Rltb_true; now apply Rmult_lt_0_compat).
    rewrite Hx, Htan by lra. now apply atan_tan.
  - assert (Hx : Rltb 0 (r * cos phi) = false) by (apply Rltb_false; rewrite Hc; lra).
    assert (Hx' : Rltb (r * cos phi) 0 = false) by (apply Rltb_false; rewrite Hc; lra).
    rewrite Hx, Hx'. destruct Hr1 as [-> | ->].
    + rewrite sin_PI2.
      assert (Hy : Rltb 0 (r * 1) = true) by (apply Rltb_true; lra).
      now rewrite Hy.
    + rewrite sin_neg, sin_PI2.
      assert (Hy : Rltb 0 (r * - (1)) = false) by (apply Rltb_false; lra).
      assert (Hy' : Rltb (r * - (1)) 0 = true) by (apply Rltb_true; lra).
      now rewrite Hy, Hy'.
  - assert (Hx : Rltb 0 (r * cos phi) = false) by (apply Rltb_false; nra).
    assert (Hx' : Rltb (r * cos phi) 0 = true) by (apply Rltb_true; nra).
    rewrite Hx, Hx', Htan by lra. destruct Hr1 as [Hup | Hdown].
    + assert (Hs : 0 <= sin phi) by (apply sin_ge_0; lra).
      assert (Hy : Rltb (r * sin phi) 0 = false) by (apply Rltb_false; nra).
      rewrite Hy. replace phi with (phi - PI + PI) at 1 by ring.
      rewrite tan_shift.
      * rewrite atan_tan by lra. ring.
      * replace (phi - PI) with (- (PI - phi)) by ring.
        rewrite cos_neg, Rtrigo_facts.cos_pi_minus. lra.
    + assert (Hs : sin phi < 0) by (apply sin_lt_0_var; lra).
      assert (Hy : Rltb (r * sin phi) 0 = true) by (apply Rltb_true; nra).
      rewrite Hy. rewrite <- tan_shift by lra.
      rewrite atan_tan by lra. ring.
Qed.

(** X13: the decomposition recovers a sinusoid.  In exact arithmetic, for
    the [n] values [c + A * cos (2 * PI * m * t / n + phi)] with [0 < m],
    [2 * m < n], [A > 0] and [-PI < phi <= PI], the output of
    [computeCycleComponents] holds the harmonic [m] with frequency [m / n],
    period [n / m] samples, amplitude [A] and a phase that is [phi] up to a
    multiple of [2 * PI] (the same cosine and sine); the mean of the values
    plus [amplitude * cos (2 * PI * frequency * t + phase)] gives back
    every value.  Nothing is said of the place of this harmonic in the
    output, nor of the other harmonics. *)
Theorem computeCycleComponents_phase (n m : nat) (c A phi : R) :
  (0 < m)%nat -> (2 * m < n)%nat -> 0 < A -> - PI < phi <= PI ->
  exists comp p,
    In comp (computeCycleComponents (map Fin (sinusoid n m c A phi)))
    /\ CycleComponent.index comp = m
    /\ CycleComponent.frequency comp = Fin (INR m / INR n)
    /\ CycleComponent.periodSamples comp = Fin (INR n / INR m)
    /\ CycleComponent.amplitude comp = Fin A
    /\ CycleComponent.phase comp = Fin p
    /\ cos p = cos phi /\ sin p = sin phi
    /\ forall t, (t < n)%nat ->
         nth t (sinusoid n m c A phi) 0
         = Rmean (sinusoid n m c A phi)
           + A * cos (2 * PI * (INR m / INR n) * INR t + p).
Proof.
  intros Hm Hmn HA Hphi.
  pose proof (sinusoid_component_in n m c A phi Hm Hmn) as Hin.
  assert (Hphase : atan2 (A * INR n / 2 * sin phi) (A * INR n / 2 * cos phi) = phi).
  { apply atan2_polar; [|assumption].
    assert (0 < INR n) by (apply lt_0_INR; lia). nra. }
  exists (sinusoid_component n m A phi), phi.
  split; [exact Hin|]. unfold sinusoid_component.
  cbn [CycleComponent.index CycleComponent.frequency CycleComponent.periodSamples
       CycleComponent.amplitude CycleComponent.phase].
  rewrite Hphase, Rabs_right by lra.
  repeat (split; [reflexivity|]).
  intros t Ht. rewrite Rmean_sinusoid by lia. unfold sinusoid.
  rewrite (nth_indep _ 0
             ((fun t => c + A * cos (2 * PI * INR m * INR t / INR n + phi)) 0%nat))
    by now rewrite length_map, length_seq.
  rewrite (map_nth (fun t => c + A * cos (2 * PI * INR m * INR t / INR n + phi))).
  rewrite seq_nth by assumption. cbn [Nat.add].
  do 3 f_equal. unfold Rdiv. ring.
Qed.

Lemma computeCycleComponents_phase_witness :
  exists comp p,
    In comp (computeCycleComponents (map Fin (sinusoid 4 1 10 3 0)))
    /\ CycleComponent.index comp = 1%nat
    /\ CycleComponent.frequency comp = Fin (INR 1 / INR 4)
    /\ CycleComponent.periodSamples comp = Fin (INR 4 / INR 1)
    /\ CycleComponent.amplitude comp = Fin 3
    /\ CycleComponent.phase comp = Fin p
    /\ cos p = cos 0 /\ sin p = sin 0
    /\ forall t, (t < 4)%nat ->
         nth t (sinusoid 4 1 10 3 0) 0
         = Rmean (sinusoid 4 1 10 3 0)
           + 3 * cos (2 * PI * (INR 1 / INR 4) * INR t + p).
Proof.
  apply (computeCycleComponents_phase 4 1 10 3 0); [lia | lia | lra |].
  pose proof PI_RGT_0. lra.
Defined.

(** ** The analysis never throws *)

Lemma analyse_ok (toFixed : number -> nat -> string)
    (closes : list CandlePoint) (spacing : number) (symbol range : string) :
  exists slope text,
    computeTrendSlope closes = Ok slope
    /\ summarizeCycles toFixed symbol
         (dominantCycles (computeCycleComponents (map close closes)) spacing) range
       = Ok text
    /\ analyse toFixed closes spacing symbol range
       = Ok (mkAnalytics
               (dominantCycles (computeCycleComponents (map close closes)) spacing)
               (weightedPeriod
                  (dominantCycles (computeCycleComponents (map close closes)) spacing))
               slope text).
Proof.
  destruct (computeTrendSlope_total closes) as (slope & Hslope).
  unfold analyse. rewrite Hslope.
  set (dominant := dominantCycles _ _).
  assert (Htext : exists text, summarizeCycles toFixed symbol dominant range = Ok text).
  { unfold summarizeCycles. destruct dominant as [|primary rest]; cbn; now eexists. }
  destruct Htext as (text & Htext). exists slope, text. now rewrite Htext.
Qed.

(** X14: whatever the samples, the spacing, the symbol and the range, the
    analysis of [GET] completes without a [TypeError]: the trend slope and
    the summary are both produced, also for an empty list of samples and
    for an empty list of dominant cycles. *)
Theorem analyse_never_throws (toFixed : number -> nat -> string)
    (closes : list CandlePoint) (spacing : number) (symbol range : string) :
  exists slope text,
    computeTrendSlope closes = Ok slope
    /\ summarizeCycles toFixed symbol
         (dominantCycles (computeCycleComponents (map close closes)) spacing) range
       = Ok text
    /\ analyse toFixed closes spacing symbol range
       = Ok (mkAnalytics
               (dominantCycles (computeCycleComponents (map close closes)) spacing)
               (weightedPeriod
                  (dominantCycles (computeCycleComponents (map close closes)) spacing))
               slope text).
Proof. apply analyse_ok. Qed.

(** ** The trend slope under a change of unit *)

Lemma combine_map_r {A B C : Type} (h : B -> C) (xs : list A) (ys : list B) :
  combine xs (map h ys) = map (fun xy => (fst xy, h (snd xy))) (combine xs ys).
Proof.
  revert ys. induction xs as [|x xs IH]; intros [|y ys]; cbn [combine map];
    try reflexivity.
  now rewrite IH.
Qed.

Lemma ols_numerator_affine (a c : R) (xs ys : list R) :
  ys <> [] ->
  ols_numerator xs (map (fun y => a * y + c) ys) = a * ols_numerator xs ys.
Proof.
  intros Hne. unfold ols_numerator.
  assert (Hm : Rmean (map (fun y => a * y + c) ys) = c + a * Rmean ys).
  { rewrite <- Rmean_affine by assumption. f_equal. apply map_ext. intros y. ring. }
  rewrite Hm, combine_map_r, map_map, <- Rsum_scale.
  f_equal. apply map_ext. intros [x y]. cbn [fst snd]. ring.
Qed.

Lemma elapsed_days_values (h : R -> R) (samples : list (R * R)) :
  elapsed_days (map (fun s => (fst s, h (snd s))) samples) = elapsed_days samples.
Proof.
  destruct samples as [|s0 rest]; [reflexivity|].
  unfold elapsed_days. cbn [map fst]. now rewrite map_map.
Qed.

(** X17: the trend slope follows the unit of the prices and ignores their
    level.  Replacing every close [v] by [a * v + c], at the same
    timestamps, multiplies the slope [computeTrendSlope] returns by [a]. *)
Theorem computeTrendSlope_affine (a c : R) (samples : list (R * R)) :
  exists slope,
    computeTrendSlope (map of_sample samples) = Ok (Fin slope)
    /\ computeTrendSlope
         (map of_sample (map (fun s => (fst s, a * snd s + c)) samples))
       = Ok (Fin (a * slope)).
Proof.
  exists (ols_slope samples). split; [apply computeTrendSlope_fin|].
  rewrite computeTrendSlope_fin. do 2 f_equal.
  unfold ols_slope. rewrite length_map, (elapsed_days_values (fun v => a * v + c)).
  destruct (length samples <? 2)%nat eqn:Hn; [ring|].
  destruct (Reqb (ols_denominator (elapsed_days samples)) 0); [ring|].
  rewrite map_map. cbn [snd].
  rewrite <- (map_map snd (fun y => a * y + c)), ols_numerator_affine.
  - unfold Rdiv. ring.
  - destruct samples; [discriminate | discriminate].
Qed.

(** ** The request handler *)

Section HandlerProperties.
Local Open Scope string_scope.

Variable trim : string -> string.
Variable toUpperCase : string -> string.
Variable inherited : string -> option string.
Variable toFixed : number -> nat -> string.
Variable toISOString : number -> option string.
Variable new_URL : string -> option string.

Lemma includes_suffix (s : string) : String_includes (s ++ ".NS") "." = true.
Proof.
  induction s as [|ch s IH]; [reflexivity|].
  cbn [append String_includes]. rewrite IH. apply orb_true_r.
Qed.

Lemma is_empty_append (s t : string) :
  is_empty s = false -> is_empty (s ++ t) = false.
Proof. now destruct s. Qed.

Lemma is_empty_true (s : string) : is_empty s = true <-> s = "".
Proof. destruct s; cbn; split; intros H; try reflexivity; discriminate. Qed.

Lemma prefix_refl (s : string) : String.prefix s s = true.
Proof.
  induction s as [|ch s IH]; [reflexivity|].
  cbn [String.prefix]. destruct (ascii_dec ch ch); [exact IH | contradiction].
Qed.

Lemma prefix_append (s t : string) : String.prefix s (s ++ t) = true.
Proof.
  induction s as [|ch s IH]; [now destruct t|].
  cbn [append String.prefix]. destruct (ascii_dec ch ch); [exact IH | contradiction].
Qed.

Lemma sanitizeSymbol_cases (raw : string) :
  let trimmed := toUpperCase (trim raw) in
  (is_empty trimmed = true /\ sanitizeSymbol trim toUpperCase raw = "")
  \/ (is_empty trimmed = false /\ String_includes trimmed "." = true
      /\ sanitizeSymbol trim toUpperCase raw = trimmed)
  \/ (is_empty trimmed = false /\ String_includes trimmed "." = false
      /\ sanitizeSymbol trim toUpperCase raw = trimmed ++ ".NS").
Proof.
  intros trimmed. unfold sanitizeSymbol. fold trimmed.
  destruct (is_empty trimmed); [now left|].
  destruct (String_includes trimmed "."); right; [left | right]; now repeat split.
Qed.

Lemma sanitizeSymbol_empty (raw : string) :
  is_empty (sanitizeSymbol trim toUpperCase raw) = is_empty (toUpperCase (trim raw)).
Proof.
  destruct (sanitizeSymbol_cases raw) as [[He ->] | [(He & _ & ->) | (He & _ & ->)]].
  - now rewrite He.
  - reflexivity.
  - rewrite He. now apply is_empty_append.
Qed.

Lemma sanitizeSymbol_dot (raw : string) :
  is_empty (sanitizeSymbol trim toUpperCase raw) = false ->
  String_includes (sanitizeSymbol trim toUpperCase raw) "." = true.
Proof.
  destruct (sanitizeSymbol_cases raw) as [[_ ->] | [(_ & Hd & ->) | (_ & _ & ->)]].
  - discriminate.
  - intros _. exact Hd.
  - intros _. apply includes_suffix.
Qed.

(** X18: the symbol sent upstream.  [sanitizeSymbol] returns the empty
    string exactly when the input is empty once trimmed and upper-cased;
    otherwise the result begins with the trimmed, upper-cased input and
    contains a dot: the input itself when it has one, the input followed by
    [.NS] when it has none. *)
Theorem sanitizeSymbol_suffix (raw : string) :
  let trimmed := toUpperCase (trim raw) in
  let symbol := sanitizeSymbol trim toUpperCase raw in
  (symbol = "" <-> trimmed = "")
  /\ (trimmed <> "" ->
      String_includes symbol "." = true
      /\ String.prefix trimmed symbol = true
      /\ (String_includes trimmed "." = true -> symbol = trimmed)
      /\ (String_includes trimmed "." = false -> symbol = trimmed ++ ".NS")).
Proof.
  intros trimmed symbol. split.
  - rewrite <- !is_empty_true. unfold symbol, trimmed.
    now rewrite sanitizeSymbol_empty.
  - intros Hne.
    assert (He : is_empty trimmed = false).
    { destruct (is_empty trimmed) eqn:H; [|reflexivity].
      apply is_empty_true in H. contradiction. }
    split.
    { apply sanitizeSymbol_dot. unfold trimmed in He.
      now rewrite sanitizeSymbol_empty. }
    unfold symbol.
    pose proof (sanitizeSymbol_cases raw) as Hcases. cbv zeta in Hcases.
    fold trimmed in Hcases.
    destruct Hcases as [[H _] | [(_ & Hd & ->) | (_ & Hd & ->)]].
    + rewrite He in H. discriminate.
    + split; [apply prefix_refl|]. split; [reflexivity|].
      intros H. rewrite Hd in H. discriminate.
    + split; [apply prefix_append|]. split; [|reflexivity].
      intros H. rewrite Hd in H. discriminate.
Qed.

Lemma own_property_RANGE_MAP (key : string) :
  match own_property RANGE_MAP key with
  | Some r => r = key /\ In r (map fst RANGE_MAP)
  | None => True
  end.
Proof.
  unfold RANGE_MAP. cbn [own_property map fst].
  repeat match goal with
         | |- context [String.eqb ?k key] =>
             destruct (String.eqb_spec k key) as [<- | _];
             [cbn; split; [reflexivity | tauto] |]
         end.
  exact I.
Qed.

Lemma own_property_INTERVAL_MAP (r : string) :
  In r (map fst RANGE_MAP) ->
  own_property INTERVAL_MAP r = Some (if String.eqb r "5y" then "1wk" else "1d").
Proof.
  cbn. intros [<- | [<- | [<- | [<- | [<- | []]]]]]; reflexivity.
Qed.

(** X19: the range and the interval of the request.  A [range] parameter
    that is one of the five keys of [RANGE_MAP] is kept; an absent one, and
    one that is neither a key nor the name of a property inherited from
    [Object.prototype], becomes [1y].  The interval is then [1wk] for [5y]
    and [1d] for the other ranges. *)
Theorem resolve_range_supported (rangeParam : option string) :
  (forall p, rangeParam = Some p -> own_property RANGE_MAP p = None ->
             inherited p = None) ->
  exists r,
    resolve_range inherited rangeParam = JString r
    /\ r = nullish (own_property RANGE_MAP (nullish rangeParam "1y")) "1y"
    /\ In r ["3mo"; "6mo"; "1y"; "2y"; "5y"]
    /\ (forall p, rangeParam = Some p -> In p ["3mo"; "6mo"; "1y"; "2y"; "5y"] -> r = p)
    /\ resolve_interval inherited (resolve_range inherited rangeParam)
       = JString (if String.eqb r "5y" then "1wk" else "1d").
Proof.
  clear trim toUpperCase toFixed toISOString new_URL. intros Hinherited.
  set (r := nullish (own_property RANGE_MAP (nullish rangeParam "1y")) "1y").
  assert (Hrange : resolve_range inherited rangeParam = JString r).
  { unfold resolve_range, get_property, r.
    destruct rangeParam as [p|]; [|reflexivity]. cbn [nullish].
    destruct (own_property RANGE_MAP p) eqn:Hown; [reflexivity|].
    now rewrite (Hinherited p eq_refl Hown). }
  assert (Hin : In r (map fst RANGE_MAP)).
  { unfold r. pose proof (own_property_RANGE_MAP (nullish rangeParam "1y")) as H.
    destruct (own_property RANGE_MAP (nullish rangeParam "1y")); [apply H|].
    cbn. tauto. }
  exists r. split; [exact Hrange|]. split; [reflexivity|]. split; [exact Hin|]. split.
  - intros p -> Hp. unfold r. cbn [nullish].
    pose proof (own_property_RANGE_MAP p) as H.
    destruct (own_property RANGE_MAP p) eqn:Hown; [apply H|].
    exfalso. revert Hown. cbn in Hp.
    destruct Hp as [<- | [<- | [<- | [<- | [<- | []]]]]]; discriminate.
  - rewrite Hrange. unfold resolve_interval, get_property. cbn [text_of].
    now rewrite (own_property_INTERVAL_MAP r Hin).
Qed.
Lemma format_closes_spec (closes : list CandlePoint)
    (formatted : list (string * number)) :
  format_closes toISOString closes = Some formatted ->
  length formatted = length closes /\ map snd formatted = map close closes.
Proof.
  clear trim toUpperCase inherited toFixed new_URL.
  revert formatted. induction closes as [|point rest IH]; intros formatted H.
  - cbn in H. injection H as <-. now split.
  - cbn [format_closes] in H.
    destruct (toISOString _) as [time|]; [|discriminate].
    destruct (format_closes toISOString rest) as [others|]; [|discriminate].
    injection H as <-. destruct (IH others eq_refl) as [Hl Hm].
    cbn [length map snd]. now rewrite Hl, Hm.
Qed.

Lemma format_closes_some (closes : list CandlePoint) :
  (forall point, In point closes ->
                 toISOString (num_mul (timestamp point) (Fin 1000)) <> None) ->
  exists formatted, format_closes toISOString closes = Some formatted.
Proof.
  clear trim toUpperCase inherited toFixed new_URL.
  induction closes as [|point rest IH]; intros H; [now eexists|].
  cbn [format_closes].
  destruct (toISOString (num_mul (timestamp point) (Fin 1000))) as [time|] eqn:Ht.
  - destruct IH as (others & ->); [|now eexists].
    intros p Hp. apply H. now right.
  - exfalso. apply (H point); [now left | exact Ht].
Qed.

Lemma format_closes_none (closes : list CandlePoint) :
  format_closes toISOString closes = None ->
  exists point, In point closes
                /\ toISOString (num_mul (timestamp point) (Fin 1000)) = None.
Proof.
  clear trim toUpperCase inherited toFixed new_URL.
  induction closes as [|point rest IH]; intros H; [discriminate|].
  cbn [format_closes] in H.
  destruct (toISOString (num_mul (timestamp point) (Fin 1000))) as [time|] eqn:Ht.
  - destruct (format_closes toISOString rest); [discriminate|].
    destruct (IH eq_refl) as (p & Hp & Hnone). exists p. split; [now right | exact Hnone].
  - exists point. split; [now left | exact Ht].
Qed.

Lemma NextResponse_json_error (message : string) (details : option string)
    (st st' : nat) (b : Success) :
  NextResponse_json (ErrorBody message details) st = Responded st' (SuccessBody b) ->
  False.
Proof.
  unfold NextResponse_json.
  now destruct ((200 <=? st)%nat && (st <=? 599)%nat && negb (null_body_status st)).
Qed.

(** X20: what a success body guarantees.  When [GET] answers with the
    analysis, the status is 200; the upstream request was made for the
    sanitized symbol, which contains a dot, and succeeded; the body reports
    at least 32 samples, no more than the upstream timestamps or closes,
    one formatted sample per analysed sample with the closes in order; at
    most four dominant cycles; and the average cycle length is [null]
    exactly when there is no dominant cycle. *)
Theorem GET_success_sound (symbolParam rangeParam : option string)
    (fetch : YahooRequest -> option Upstream) (st : nat) (b : Success) :
  GET trim toUpperCase inherited toFixed toISOString new_URL
      symbolParam rangeParam fetch
  = Responded st (SuccessBody b) ->
  st = 200%nat
  /\ resolvedSymbol b = sanitizeSymbol trim toUpperCase (nullish symbolParam "")
  /\ String_includes (resolvedSymbol b) "." = true
  /\ (exists url response stamps exchangeName quotes,
        new_URL (resolvedSymbol b) = Some url
        /\ fetch (mkYahooRequest url (text_of (body_range b))
                                 (text_of (body_interval b))) = Some response
        /\ ok response = true
        /\ json response
           = Some (Some (mkChart (Some stamps) exchangeName (Some quotes)))
        /\ (sampleSize b <= length stamps)%nat
        /\ (sampleSize b <= length quotes)%nat
        /\ map snd (body_closes b) = map close (buildCloses stamps quotes)
        /\ body_samplePeriodDays b = samplePeriodDays (buildCloses stamps quotes)
        /\ exchange b = nullish exchangeName "NSE")
  /\ (32 <= sampleSize b)%nat
  /\ sampleSize b = length (body_closes b)
  /\ (length (analytics_dominantCycles (analytics b)) <= 4)%nat
  /\ (averageCycleLengthDays (analytics b) = None
      <-> analytics_dominantCycles (analytics b) = []).
Proof.
  intros H. unfold GET in H.
  set (rawSymbol := nullish symbolParam "") in *.
  set (range := resolve_range inherited rangeParam) in *.
  set (interval := resolve_interval inherited range) in *.
  set (symbol := sanitizeSymbol trim toUpperCase rawSymbol) in *.
  destruct (is_empty symbol) eqn:Hsym;
    [now apply NextResponse_json_error in H|].
  destruct (new_URL symbol) as [url|] eqn:Hurl; [|discriminate].
  destruct (fetch _) as [response|] eqn:Hfetch; [|discriminate].
  destruct (ok response) eqn:Hok; cbn [negb] in H.
  2:{ destruct (text response); [|discriminate].
      now apply NextResponse_json_error in H. }
  destruct (json response) as [[[[[|stamp stamps]|] exchangeName [[|quote quotes]|]]|]|]
    eqn:Hjson;
    try discriminate; try (now apply NextResponse_json_error in H).
  set (closes := buildCloses (stamp :: stamps) (quote :: quotes)) in *.
  destruct (length closes <? 32)%nat eqn:Hlen;
    [now apply NextResponse_json_error in H|].
  apply Nat.ltb_ge in Hlen.
  destruct (analyse_ok toFixed closes (samplePeriodDays closes) symbol (text_of range))
    as (slope & summaryText & _ & _ & Han).
  rewrite Han in H.
  destruct (nth_error closes (length closes - 1)) as [latest|]; [|discriminate].
  destruct (toISOString (num_mul (timestamp latest) (Fin 1000))) as [updated|];
    [|discriminate].
  destruct (format_closes toISOString closes) as [formatted|] eqn:Hfmt; [|discriminate].
  injection H as <- <-.
  cbn [resolvedSymbol body_range body_interval sampleSize body_closes
       body_samplePeriodDays exchange analytics analytics_dominantCycles
       averageCycleLengthDays].
  destruct (format_closes_spec closes formatted Hfmt) as [Hflen Hfmap].
  pose proof (length_paired_closes (stamp :: stamps) (quote :: quotes)) as [Hl1 Hl2].
  rewrite <- buildCloses_paired in Hl1, Hl2. fold closes in Hl1, Hl2.
  split; [reflexivity|]. split; [reflexivity|].
  split; [now apply sanitizeSymbol_dot|].
  split.
  { exists url, response, (stamp :: stamps), exchangeName, (quote :: quotes).
    repeat (split; [first [assumption | reflexivity]|]). reflexivity. }
  split; [assumption|]. split; [now symmetry|].
  split; [apply dominantCycles_length|]. apply weightedPeriod_none.
Qed.
Lemma format_closes_entries (closes : list CandlePoint)
    (formatted : list (string * number)) :
  format_closes toISOString closes = Some formatted ->
  map (fun entry => (Some (fst entry), snd entry)) formatted
  = map (fun point =>
           (toISOString (num_mul (timestamp point) (Fin 1000)), close point))
        closes.
Proof.
  clear trim toUpperCase inherited toFixed new_URL.
  revert formatted. induction closes as [|point rest IH]; intros formatted H.
  - cbn in H. injection H as <-. reflexivity.
  - cbn [format_closes] in H.
    destruct (toISOString (num_mul (timestamp point) (Fin 1000))) as [time|] eqn:Ht;
      [|discriminate].
    destruct (format_closes toISOString rest) as [others|]; [|discriminate].
    injection H as <-. cbn [map fst snd]. now rewrite Ht, (IH others eq_refl).
Qed.

Lemma GET_success_run (symbolParam rangeParam : option string)
    (fetch : YahooRequest -> option Upstream) (url : string) (response : Upstream)
    (stamps : list number) (exchangeName : option string)
    (quotes : list (option number)) :
  is_empty (toUpperCase (trim (nullish symbolParam ""))) = false ->
  new_URL (sanitizeSymbol trim toUpperCase (nullish symbolParam "")) = Some url ->
  fetch (mkYahooRequest url
           (text_of (resolve_range inherited rangeParam))
           (text_of (resolve_interval inherited (resolve_range inherited rangeParam))))
  = Some response ->
  ok response = true ->
  json response = Some (Some (mkChart (Some stamps) exchangeName (Some quotes))) ->
  (32 <= length (buildCloses stamps quotes))%nat ->
  (forall point, In point (buildCloses stamps quotes) ->
                 toISOString (num_mul (timestamp point) (Fin 1000)) <> None) ->
  let symbol := sanitizeSymbol trim toUpperCase (nullish symbolParam "") in
  let range := resolve_range inherited rangeParam in
  let closes := buildCloses stamps quotes in
  let spacing := samplePeriodDays closes in
  let cycles := dominantCycles (computeCycleComponents (map close closes)) spacing in
  exists b,
    GET trim toUpperCase inherited toFixed toISOString new_URL
        symbolParam rangeParam fetch
    = Responded 200 (SuccessBody b)
    /\ requestedSymbol b = toUpperCase (trim (nullish symbolParam ""))
    /\ resolvedSymbol b = symbol
    /\ exchange b = nullish exchangeName "NSE"
    /\ body_range b = range
    /\ body_interval b = resolve_interval inherited range
    /\ sampleSize b = length closes
    /\ body_samplePeriodDays b = spacing
    /\ map (fun entry => (Some (fst entry), snd entry)) (body_closes b)
       = map (fun point =>
                (toISOString (num_mul (timestamp point) (Fin 1000)), close point))
             closes
    /\ (exists latest,
          nth_error closes (length closes - 1) = Some latest
          /\ toISOString (num_mul (timestamp latest) (Fin 1000))
             = Some (lastUpdated b))
    /\ analytics_dominantCycles (analytics b) = cycles
    /\ averageCycleLengthDays (analytics b) = weightedPeriod cycles
    /\ computeTrendSlope closes = Ok (trendSlope (analytics b))
    /\ summarizeCycles toFixed symbol cycles (text_of range)
       = Ok (summary (analytics b)).
Proof.
  intros Hsym Hurl Hfetch Hok Hjson Hlen Hdates symbol range closes spacing cycles.
  pose proof (length_paired_closes stamps quotes) as [Hl1 Hl2].
  rewrite <- buildCloses_paired in Hl1, Hl2. fold closes in Hl1, Hl2.
  unfold GET. fold symbol. fold range.
  assert (Hempty : is_empty symbol = false)
    by (unfold symbol; now rewrite sanitizeSymbol_empty).
  fold symbol in Hurl. fold range in Hfetch.
  rewrite Hempty, Hurl, Hfetch, Hok, Hjson. cbn [negb].
  subst closes.
  destruct stamps as [|stamp stamps]; [cbn [length] in Hl1; lia|].
  destruct quotes as [|quote quotes]; [cbn [length] in Hl2; lia|].
  set (closes := buildCloses (stamp :: stamps) (quote :: quotes)) in *.
  assert (Hlt : (length closes <? 32)%nat = false) by now apply Nat.ltb_ge.
  rewrite Hlt.
  destruct (analyse_ok toFixed closes (samplePeriodDays closes) symbol (text_of range))
    as (slope & summaryText & Hslope & Hsummary & ->).
  destruct (nth_error closes (length closes - 1)) as [latest|] eqn:Hlatest.
  2:{ apply nth_error_None in Hlatest. lia. }
  pose proof (nth_error_In _ _ Hlatest) as Hin.
  destruct (toISOString (num_mul (timestamp latest) (Fin 1000))) as [updated|] eqn:Hd.
  2:{ exfalso. exact (Hdates latest Hin Hd). }
  destruct (format_closes_some closes Hdates) as (formatted & Hfmt).
  rewrite Hfmt. eexists. split; [reflexivity|].
  cbn [requestedSymbol resolvedSymbol exchange body_range body_interval sampleSize
       body_samplePeriodDays body_closes lastUpdated analytics
       analytics_dominantCycles averageCycleLengthDays trendSlope summary].
  repeat (split; [reflexivity|]).
  split; [now apply format_closes_entries|].
  split; [exists latest; now split|].
  repeat (split; [reflexivity|]).
  split; [exact Hslope | exact Hsummary].
Qed.

(** X21: the analysis is delivered.  For a symbol that is not blank, when
    the URL can be built, the upstream answers [ok] with a chart whose
    timestamps and closes pair into at least 32 samples, and every sample's
    timestamp can be formatted as a date, [GET] answers 200 and every field
    of the body is the one the source computes from these samples: the two
    symbols, the exchange, the range and the interval, the sample count and
    spacing, each sample with its date and close, the date of the last
    sample, the dominant cycles of the decomposition of the closes, their
    weighted period, the trend slope and the summary.  No step of the
    handler's own computation throws. *)
Theorem GET_succeeds (symbolParam rangeParam : option string)
    (fetch : YahooRequest -> option Upstream) (url : string) (response : Upstream)
    (stamps : list number) (exchangeName : option string)
    (quotes : list (option number)) :
  toUpperCase (trim (nullish symbolParam "")) <> "" ->
  new_URL (sanitizeSymbol trim toUpperCase (nullish symbolParam "")) = Some url ->
  fetch (mkYahooRequest url
           (text_of (resolve_range inherited rangeParam))
           (text_of (resolve_interval inherited (resolve_range inherited rangeParam))))
  = Some response ->
  ok response = true ->
  json response = Some (Some (mkChart (Some stamps) exchangeName (Some quotes))) ->
  (32 <= length (buildCloses stamps quotes))%nat ->
  (forall point, In point (buildCloses stamps quotes) ->
                 toISOString (num_mul (timestamp point) (Fin 1000)) <> None) ->
  let symbol := sanitizeSymbol trim toUpperCase (nullish symbolParam "") in
  let range := resolve_range inherited rangeParam in
  let closes := buildCloses stamps quotes in
  let spacing := samplePeriodDays closes in
  let cycles := dominantCycles (computeCycleComponents (map close closes)) spacing in
  exists b,
    GET trim toUpperCase inherited toFixed toISOString new_URL
        symbolParam rangeParam fetch
    = Responded 200 (SuccessBody b)
    /\ requestedSymbol b = toUpperCase (trim (nullish symbolParam ""))
    /\ resolvedSymbol b = symbol
    /\ exchange b = nullish exchangeName "NSE"
    /\ body_range b = range
    /\ body_interval b = resolve_interval inherited range
    /\ sampleSize b = length closes
    /\ body_samplePeriodDays b = spacing
    /\ map (fun entry => (Some (fst entry), snd entry)) (body_closes b)
       = map (fun point =>
                (toISOString (num_mul (timestamp point) (Fin 1000)), close point))
             closes
    /\ (exists latest,
          nth_error closes (length closes - 1) = Some latest
          /\ toISOString (num_mul (timestamp latest) (Fin 1000))
             = Some (lastUpdated b))
    /\ analytics_dominantCycles (analytics b) = cycles
    /\ averageCycleLengthDays (analytics b) = weightedPeriod cycles
    /\ computeTrendSlope closes = Ok (trendSlope (analytics b))
    /\ summarizeCycles toFixed symbol cycles (text_of range)
       = Ok (summary (analytics b)).
Proof.
  intros Hsym. apply GET_success_run.
  destruct (is_empty _) eqn:He; [|reflexivity].
  apply is_empty_true in He. contradiction.
Qed.

Lemma NextResponse_json_ok (content : body) (st : nat) :
  (200 <=? st)%nat && (st <=? 599)%nat && negb (null_body_status st) = true ->
  NextResponse_json content st = Responded st content.
Proof. unfold NextResponse_json. now intros ->. Qed.

Lemma NextResponse_json_rejected (content : body) (st : nat) :
  NextResponse_json content st = Rejected ->
  (st < 200 \/ 599 < st)%nat \/ null_body_status st = true.
Proof.
  unfold NextResponse_json.
  destruct (200 <=? st)%nat eqn:H1; [|apply Nat.leb_gt in H1; left; lia].
  destruct (st <=? 599)%nat eqn:H2; [|apply Nat.leb_gt in H2; left; lia].
  destruct (null_body_status st); [now right | discriminate].
Qed.

(** X22: why the handler can reject.  The promise of [GET] rejects only
    when the URL cannot be built, the upstream request fails, the body of
    an upstream error cannot be read or its status is one no response with
    a body can carry (outside 200..599, or 204, 205 or 304), the upstream
    body is not JSON, or the timestamp of a sample cannot be formatted as a
    date.  The answers 400, 404 and 422 and the analysis itself never
    reject. *)
Theorem GET_rejection (symbolParam rangeParam : option string)
    (fetch : YahooRequest -> option Upstream) :
  GET trim toUpperCase inherited toFixed toISOString new_URL
      symbolParam rangeParam fetch
  = Rejected ->
  new_URL (sanitizeSymbol trim toUpperCase (nullish symbolParam "")) = None
  \/ exists url,
       new_URL (sanitizeSymbol trim toUpperCase (nullish symbolParam "")) = Some url
       /\ (fetch (mkYahooRequest url
                    (text_of (resolve_range inherited rangeParam))
                    (text_of (resolve_interval inherited
                                (resolve_range inherited rangeParam))))
           = None
           \/ exists response,
                fetch (mkYahooRequest url
                         (text_of (resolve_range inherited rangeParam))
                         (text_of (resolve_interval inherited
                                     (resolve_range inherited rangeParam))))
                = Some response
                /\ ((ok response = false
                     /\ (text response = None
                         \/ (status response < 200 \/ 599 < status response)%nat
                         \/ null_body_status (status response) = true))
                    \/ (ok response = true
                        /\ (json response = None
                            \/ exists stamps exchangeName quotes point,
                                 json response
                                 = Some (Some (mkChart (Some stamps) exchangeName
                                                       (Some quotes)))
                                 /\ In point (buildCloses stamps quotes)
                                 /\ toISOString
                                      (num_mul (timestamp point) (Fin 1000))
                                    = None)))).
Proof.
  intros H. unfold GET in H.
  set (symbol := sanitizeSymbol trim toUpperCase (nullish symbolParam "")) in *.
  set (range := resolve_range inherited rangeParam) in *.
  set (interval := resolve_interval inherited range) in *.
  destruct (is_empty symbol) eqn:Hsym.
  { rewrite NextResponse_json_ok in H by reflexivity. discriminate. }
  destruct (new_URL symbol) as [url|] eqn:Hurl; [|now left].
  right. exists url. split; [reflexivity|].
  destruct (fetch _) as [response|] eqn:Hfetch; [|now left].
  right. exists response. split; [reflexivity|].
  destruct (ok response) eqn:Hok; cbn [negb] in H.
  2:{ left. split; [reflexivity|].
      destruct (text response); [|now left].
      right. apply NextResponse_json_rejected in H. tauto. }
  right. split; [reflexivity|].
  destruct (json response) as [[[[[|stamp stamps]|] exchangeName [[|quote quotes]|]]|]|]
    eqn:Hjson;
    try (now left);
    try (rewrite NextResponse_json_ok in H by reflexivity; discriminate).
  right.
  set (closes := buildCloses (stamp :: stamps) (quote :: quotes)) in *.
  destruct (length closes <? 32)%nat eqn:Hlen.
  { rewrite NextResponse_json_ok in H by reflexivity. discriminate. }
  apply Nat.ltb_ge in Hlen.
  destruct (analyse_ok toFixed closes (samplePeriodDays closes) symbol (text_of range))
    as (slope & summaryText & _ & _ & Han).
  rewrite Han in H.
  exists (stamp :: stamps), exchangeName, (quote :: quotes).
  destruct (nth_error closes (length closes - 1)) as [latest|] eqn:Hlatest.
  2:{ apply nth_error_None in Hlatest. lia. }
  apply nth_error_In in Hlatest.
  destruct (toISOString (num_mul (timestamp latest) (Fin 1000))) as [updated|] eqn:Hd.
  2:{ exists latest. now repeat split. }
  destruct (format_closes toISOString closes) as [formatted|] eqn:Hfmt; [discriminate|].
  destruct (format_closes_none closes Hfmt) as (point & Hpoint & Hnone).
  exists point. now repeat split.
Qed.
End HandlerProperties.

Lemma resolve_range_supported_witness :
  exists r,
    resolve_range (fun _ => None) (Some "5y"%string) = JString r
    /\ r = nullish (own_property RANGE_MAP (nullish (Some "5y"%string) "1y"%string))
                   "1y"%string
    /\ In r ["3mo"; "6mo"; "1y"; "2y"; "5y"]%string
    /\ (forall p, Some "5y"%string = Some p ->
                  In p ["3mo"; "6mo"; "1y"; "2y"; "5y"]%string -> r = p)
    /\ resolve_interval (fun _ => None)
         (resolve_range (fun _ => None) (Some "5y"%string))
       = JString (if String.eqb r "5y" then "1wk" else "1d")%string.
Proof.
  apply (resolve_range_supported (fun _ => None) (Some "5y"%string)).
  intros p _ _. reflexivity.
Defined.

Section HandlerExamples.
Local Open Scope string_scope.

Lemma example_GET_success :
  exists b,
    example_GET same_URL (Some "INFY") = Responded 200 (SuccessBody b).
Proof.
  unfold example_GET.
  edestruct (GET_success_run (fun s => s) (fun s => s) (fun _ => None)
               (fun _ _ => EmptyString) (fun _ => Some EmptyString) same_URL
               (Some "INFY") None daily_upstream)
    as (b & Hb & _); try reflexivity.
  - intros point _. discriminate.
  - exists b. exact Hb.
Qed.

Lemma GET_success_sound_witness :
  exists st b,
    example_GET same_URL (Some "INFY") = Responded st (SuccessBody b)
    /\ (st = 200%nat
  /\ resolvedSymbol b = sanitizeSymbol (fun s => s) (fun s => s) (nullish (Some "INFY") "")
  /\ String_includes (resolvedSymbol b) "." = true
  /\ (exists url response stamps exchangeName quotes,
        same_URL (resolvedSymbol b) = Some url
        /\ daily_upstream (mkYahooRequest url (text_of (body_range b))
                                 (text_of (body_interval b))) = Some response
        /\ ok response = true
        /\ json response
           = Some (Some (mkChart (Some stamps) exchangeName (Some quotes)))
        /\ (sampleSize b <= length stamps)%nat
        /\ (sampleSize b <= length quotes)%nat
        /\ map snd (body_closes b) = map close (buildCloses stamps quotes)
        /\ body_samplePeriodDays b = samplePeriodDays (buildCloses stamps quotes)
        /\ exchange b = nullish exchangeName "NSE")
  /\ (32 <= sampleSize b)%nat
  /\ sampleSize b = length (body_closes b)
  /\ (length (analytics_dominantCycles (analytics b)) <= 4)%nat
  /\ (averageCycleLengthDays (analytics b) = None
      <-> analytics_dominantCycles (analytics b) = [])).
Proof.
  destruct example_GET_success as (b & Hb).
  exists 200%nat, b. split; [exact Hb|].
  exact (GET_success_sound (fun s => s) (fun s => s) (fun _ => None)
           (fun _ _ => EmptyString) (fun _ => Some EmptyString) same_URL
           (Some "INFY") None daily_upstream 200 b Hb).
Defined.

Lemma GET_succeeds_witness :
  let symbol := sanitizeSymbol (fun s => s) (fun s => s) (nullish (Some "INFY") "") in
  let range := resolve_range (fun _ => None) None in
  let closes := buildCloses daily_stamps daily_closes in
  let spacing := samplePeriodDays closes in
  let cycles := dominantCycles (computeCycleComponents (map close closes)) spacing in
  exists b,
    example_GET same_URL (Some "INFY")
    = Responded 200 (SuccessBody b)
    /\ requestedSymbol b = nullish (Some "INFY") ""
    /\ resolvedSymbol b = symbol
    /\ exchange b = nullish None "NSE"
    /\ body_range b = range
    /\ body_interval b = resolve_interval (fun _ => None) range
    /\ sampleSize b = length closes
    /\ body_samplePeriodDays b = spacing
    /\ map (fun entry => (Some (fst entry), snd entry)) (body_closes b)
       = map (fun point =>
                ((fun _ : number => Some EmptyString) (num_mul (timestamp point) (Fin 1000)), close point))
             closes
    /\ (exists latest,
          nth_error closes (length closes - 1) = Some latest
          /\ (fun _ : number => Some EmptyString) (num_mul (timestamp latest) (Fin 1000))
             = Some (lastUpdated b))
    /\ analytics_dominantCycles (analytics b) = cycles
    /\ averageCycleLengthDays (analytics b) = weightedPeriod cycles
    /\ computeTrendSlope closes = Ok (trendSlope (analytics b))
    /\ summarizeCycles (fun _ _ => EmptyString) symbol cycles (text_of range)
       = Ok (summary (analytics b)).
Proof.
  apply (GET_succeeds (fun s => s) (fun s => s) (fun _ => None)
           (fun _ _ => EmptyString) (fun _ => Some EmptyString) same_URL
           (Some "INFY") None daily_upstream "INFY.NS"
           (mkUpstream true 200 None
              (Some (Some (mkChart (Some daily_stamps) None (Some daily_closes)))))
           daily_stamps None daily_closes);
    try reflexivity.
  - discriminate.
  - intros point _. discriminate.
Defined.

Lemma GET_rejection_witness :
  no_URL (sanitizeSymbol (fun s => s) (fun s => s) (nullish (Some "INFY") "")) = None
  \/ exists url,
       no_URL (sanitizeSymbol (fun s => s) (fun s => s) (nullish (Some "INFY") "")) = Some url
       /\ (daily_upstream (mkYahooRequest url
                    (text_of (resolve_range (fun _ => None) None))
                    (text_of (resolve_interval (fun _ => None)
                                (resolve_range (fun _ => None) None))))
           = None
           \/ exists response,
                daily_upstream (mkYahooRequest url
                         (text_of (resolve_range (fun _ => None) None))
                         (text_of (resolve_interval (fun _ => None)
                                     (resolve_range (fun _ => None) None))))
                = Some response
                /\ ((ok response = false
                     /\ (text response = None
                         \/ (status response < 200 \/ 599 < status response)%nat
                         \/ null_body_status (status response) = true))
                    \/ (ok response = true
                        /\ (json response = None
                            \/ exists stamps exchangeName quotes point,
                                 json response
                                 = Some (Some (mkChart (Some stamps) exchangeName
                                                       (Some quotes)))
                                 /\ In point (buildCloses stamps quotes)
                                 /\ (fun _ : number => Some EmptyString)
                                      (num_mul (timestamp point) (Fin 1000))
                                    = None)))).
Proof.
  apply (GET_rejection (fun s => s) (fun s => s) (fun _ => None)
           (fun _ _ => EmptyString) (fun _ => Some EmptyString) no_URL
           (Some "INFY") None daily_upstream).
  reflexivity.
Defined.
End HandlerExamples.
